(** * Agent session persistence (meta_reference/persistence.py)

    A shallow embedding of [AgentPersistence]: the key schema, the
    read/write operations against the key-value backend, and the ordering of
    the turns returned by a session scan.

    Python values are modelled as follows.
    - A [str] is the list of its code points; comparison of two [str] is
      Python's, lexicographic on code points.  An f-string that only
      interpolates [str] values is the concatenation of its pieces.
    - A [datetime] is its wall-clock reading, in microseconds since
      [datetime.min], together with its utcoffset, absent for a naive one.
      Ordering two of them is Python's: by wall clock when both are naive,
      by UTC instant when both are aware, a [TypeError] when one is naive
      and the other aware.
    - An [async def] is a computation over the world it runs in (the backend
      store, the logger's records, the sources of uuids and of time) that
      returns a value or raises. *)

From Stdlib Require Import String Ascii.
From stdpp Require Import gmap list sorting.

Local Open Scope N_scope.

(** ** Strings *)

Abbreviation str := (list N).

(** A string literal of the source. *)
Definition lit (s : string) : str := N_of_ascii <$> list_ascii_of_string s.
Arguments lit : simpl never.

(** Python's [a < b], [a <= b] on [str]. *)
Fixpoint str_compare (a b : str) : comparison :=
  match a, b with
  | [], [] => Eq
  | [], _ :: _ => Lt
  | _ :: _, [] => Gt
  | x :: a', y :: b' =>
      match x ?= y with
      | Eq => str_compare a' b'
      | c => c
      end
  end.

Definition str_ltb (a b : str) : bool :=
  match str_compare a b with Lt => true | _ => false end.

Definition str_leb (a b : str) : bool :=
  match str_compare a b with Gt => false | _ => true end.

(** The delimiter of the key schema. *)
Definition colon : N := 58.

Definition colon_free (s : str) : Prop := colon ∉ s.

(** ** Domain records *)

(** [datetime]: [wall] counts the microseconds from 0001-01-01T00:00:00 to
    the reading of the datetime's own clock, [utcoffset] is [utcoffset()] in
    microseconds, [None] for a naive datetime. *)
Record datetime := mkDatetime {
  wall : N;
  utcoffset : option Z
}.

Definition naive (t : N) : datetime := mkDatetime t None.

(** [datetime.min], which is naive. *)
Definition datetime_min : datetime := naive 0.

Definition aware (d : datetime) : bool :=
  match utcoffset d with Some _ => true | None => false end.

(** The point in time two datetimes of the same kind are ordered by: the
    wall clock itself for a naive one, the wall clock less the offset for an
    aware one. *)
Definition instant (d : datetime) : Z :=
  (Z.of_N (wall d) - default 0 (utcoffset d))%Z.

(** [class AgentSessionInfo(BaseModel)] *)
Record AgentSessionInfo := mkAgentSessionInfo {
  session_id : str;
  session_name : str;
  vector_db_id : option str;
  started_at : datetime
}.

(** Modelled from the spec: [Turn] is declared in [llama_stack.apis.agents],
    which is not part of the sources at hand.  The spec keeps it opaque beyond
    a [turn_id] and an optional [completed_at]; the remaining fields are
    carried as [turn_body]. *)
Record Turn := mkTurn {
  turn_id : str;
  completed_at : option datetime;
  turn_body : str
}.

(** Modelled from the spec: [ToolExecutionStep] is declared in
    [llama_stack.apis.agents] too; the persistence layer only serialises it. *)
Record ToolExecutionStep := mkToolExecutionStep {
  step_id : str;
  step_body : str
}.

(** ** Exceptions and results *)

Inductive exn :=
  | ValueError (msg : str)
  | ParseError (msg : str)
  | TypeError (msg : str).

Definition exn_str (e : exn) : str :=
  match e with ValueError m | ParseError m | TypeError m => m end.

Inductive result (A : Type) :=
  | Ok (a : A)
  | Raise (e : exn).
Arguments Ok {A} a.
Arguments Raise {A} e.

Definition ok_of {A} (r : result A) : option A :=
  match r with Ok a => Some a | Raise _ => None end.

(** ** Serialisation

    [x.model_dump_json()] and [X( **json.loads(value))] come from pydantic and
    the standard library; the persistence layer relies on them through this
    interface only.  [BaseModelLaws] is what is assumed of them: a dumped
    record loads back to itself (the round trip the spec requires), and a
    dump, being the text of a JSON object, is never empty. *)
Class BaseModel (A : Type) := {
  model_dump_json : A → str;
  model_validate : str → result A
}.

Class BaseModelLaws (A : Type) `{BaseModel A} : Prop := {
  validate_dump : ∀ x : A, model_validate (model_dump_json x) = Ok x;
  dump_truthy : ∀ x : A, model_dump_json x ≠ []
}.

(** ** The world an operation runs in *)

Record World := mkWorld {
  kv : gmap str str;          (* the contents of the key-value backend *)
  log : list str;             (* records emitted through [log.error] *)
  uuid_seq : nat → str;       (* what [str(uuid.uuid4())] answers, call by call *)
  time_seq : nat → datetime;  (* what [datetime.now()] answers, call by call *)
  tick : nat                  (* calls made so far to either source *)
}.

Definition with_kv (f : gmap str str → gmap str str) (w : World) : World :=
  mkWorld (f (kv w)) (log w) (uuid_seq w) (time_seq w) (tick w).

Definition with_log (f : list str → list str) (w : World) : World :=
  mkWorld (kv w) (f (log w)) (uuid_seq w) (time_seq w) (tick w).

Definition with_tick (w : World) : World :=
  mkWorld (kv w) (log w) (uuid_seq w) (time_seq w) (S (tick w)).

(** ** Computations *)

Definition M (A : Type) : Type := World → result A * World.

Definition ret {A} (a : A) : M A := λ w, (Ok a, w).

Definition raise {A} (e : exn) : M A := λ w, (Raise e, w).

Definition bind {A B} (m : M A) (k : A → M B) : M B :=
  λ w, match m w with
       | (Ok a, w') => k a w'
       | (Raise e, w') => (Raise e, w')
       end.

#[global] Instance M_ret : MRet M := @ret.
#[global] Instance M_bind : MBind M := λ A B k m, bind m k.

Definition uuid4 : M str := λ w, (Ok (uuid_seq w (tick w)), with_tick w).

Definition datetime_now : M datetime :=
  λ w, (Ok (time_seq w (tick w)), with_tick w).

Definition log_error (msg : str) : M unit :=
  λ w, (Ok tt, with_log (λ l, l ++ [msg]) w).

(** A value or an exception computed without touching the world. *)
Definition lift_result {A} (r : result A) : M A := λ w, (r, w).

(** ** Sorting

    A stable sort under a total order.  The result of a stable sort is
    determined by its input, so insertion from the right computes it. *)
Fixpoint insert_by {A} (leb : A → A → bool) (x : A) (l : list A) : list A :=
  match l with
  | [] => [x]
  | y :: l' => if leb x y then x :: l else y :: insert_by leb x l'
  end.

Definition stable_sort {A} (leb : A → A → bool) (l : list A) : list A :=
  foldr (insert_by leb) [] l.

Definition sort_on {A} (key : A → Z) (l : list A) : list A :=
  stable_sort (λ a b, key a <=? key b)%Z l.

(** What ordering a naive datetime against an aware one raises. *)
Definition type_error : exn :=
  TypeError (lit "can't compare offset-naive and offset-aware datetimes").

(** [a < b] on two datetimes. *)
Definition datetime_lt (a b : datetime) : result bool :=
  if eqb (aware a) (aware b) then Ok (instant a <? instant b)%Z
  else Raise type_error.

(** [l.sort(key=key)] with datetime keys: a stable sort that only asks
    [key y < key x], and raises as soon as a comparison does.  Every
    comparison that raises raises the same [TypeError], and a sort that
    returns has, for every two neighbours of its result, compared them; so
    the outcome does not depend on the order in which elements are
    compared, and insertion from the right computes it. *)
Fixpoint insort {A} (key : A → datetime) (x : A) (l : list A)
  : result (list A) :=
  match l with
  | [] => Ok [x]
  | y :: l' =>
      match datetime_lt (key y) (key x) with
      | Raise e => Raise e
      | Ok false => Ok (x :: l)
      | Ok true =>
          match insort key x l' with
          | Ok r => Ok (y :: r)
          | Raise e => Raise e
          end
      end
  end.

Fixpoint list_sort {A} (key : A → datetime) (l : list A) : result (list A) :=
  match l with
  | [] => Ok []
  | x :: l' =>
      match list_sort key l' with
      | Ok sorted => insort key x sorted
      | Raise e => Raise e
      end
  end.

(** Datetimes that can be ordered with one another: all naive or all
    aware. *)
Definition uniform (ds : list datetime) : bool :=
  match ds with
  | [] => true
  | d :: ds' => forallb (λ d', eqb (aware d) (aware d')) ds'
  end.

(** ** The key-value backend

    Modelled from the spec: [KVStore] lives in
    [llama_stack.providers.utils.kvstore], which is not part of the sources
    at hand.  The spec gives its contract: [set(key, value)], [get(key)]
    answering the value or nothing, and [range(start_key, end_key)] answering
    the values of all keys in the half-open interval [start_key, end_key),
    ordered by key. *)
Definition in_range (start_key end_key k : str) : bool :=
  str_leb start_key k && str_ltb k end_key.

Definition range_items (start_key end_key : str) (σ : gmap str str)
  : list (str * str) :=
  stable_sort (λ p q, str_leb p.1 q.1)
    (filter (λ p : str * str, in_range start_key end_key p.1) (map_to_list σ)).

Definition kvstore_set (key value : str) : M unit :=
  λ w, (Ok tt, with_kv (insert key value) w).

Definition kvstore_get (key : str) : M (option str) :=
  λ w, (Ok (kv w !! key), w).

Definition kvstore_range (start_key end_key : str) : M (list str) :=
  λ w, (Ok ((range_items start_key end_key (kv w)).*2), w).

(** ** AgentPersistence *)

(** [X( **json.loads(value))]: the record, or the exception raised. *)
Definition loads {A} `{BaseModel A} (value : str) : M A :=
  λ w, (model_validate value, w).

(** [not value] for a value that is [None] or a [str]: true of [None] and of
    the empty text.  Where it is false, [default [] value] is the text. *)
Definition falsy (value : option str) : bool :=
  match value with
  | None | Some [] => true
  | Some (_ :: _) => false
  end.

(** [session_info.vector_db_id = vector_db_id] *)
Definition set_vector_db_id (info : AgentSessionInfo) (v : option str)
  : AgentSessionInfo :=
  mkAgentSessionInfo (session_id info) (session_name info) v (started_at info).

(** The end-of-range suffix ["\xff\xff\xff\xff"]. *)
Definition xff4 : str := [255; 255; 255; 255].

(** [x.completed_at or datetime.min]: a [datetime] is always truthy. *)
Definition sort_key (x : Turn) : datetime :=
  default datetime_min (completed_at x).

Section AgentPersistence.
Context (agent_id : str).
Context `{BaseModel AgentSessionInfo, BaseModel Turn,
          BaseModel ToolExecutionStep}.

(** The three key families. *)
Definition session_key (session_id : str) : str :=
  lit "session:" ++ agent_id ++ lit ":" ++ session_id.

Definition turn_prefix (session_id : str) : str :=
  lit "session:" ++ agent_id ++ lit ":" ++ session_id ++ lit ":".

Definition turn_key (session_id turn_id : str) : str :=
  lit "session:" ++ agent_id ++ lit ":" ++ session_id ++ lit ":" ++ turn_id.

Definition step_key (session_id turn_id : str) : str :=
  lit "in_progress_tool_call_step:" ++ agent_id ++ lit ":" ++ session_id
    ++ lit ":" ++ turn_id.

Definition create_session (name : str) : M str :=
  session_id ← uuid4;
  now ← datetime_now;
  let session_info := mkAgentSessionInfo session_id name None now in
  kvstore_set (session_key session_id) (model_dump_json session_info);;
  mret session_id.

Definition get_session_info (session_id : str) : M (option AgentSessionInfo) :=
  value ← kvstore_get (session_key session_id);
  if falsy value then mret None
  else info ← loads (default [] value);
       mret (Some info).

Definition add_vector_db_to_session (session_id vector_db_id : str) : M unit :=
  session_info ← get_session_info session_id;
  match session_info with
  | None => raise (ValueError (lit "Session " ++ session_id ++ lit " not found"))
  | Some info =>
      let info' := set_vector_db_id info (Some vector_db_id) in
      kvstore_set (session_key session_id) (model_dump_json info')
  end.

Definition add_turn_to_session (session_id : str) (turn : Turn) : M unit :=
  kvstore_set (turn_key session_id (turn_id turn)) (model_dump_json turn).

(** The [for value in values] loop with its [try]/[except]. *)
Fixpoint parse_turns (values : list str) (turns : list Turn) : M (list Turn) :=
  match values with
  | [] => mret turns
  | value :: values' =>
      match model_validate value with
      | Ok turn => parse_turns values' (turns ++ [turn])
      | Raise e =>
          log_error (lit "Error parsing turn: " ++ exn_str e);;
          parse_turns values' turns
      end
  end.

Definition get_session_turns (session_id : str) : M (list Turn) :=
  values ← kvstore_range (turn_prefix session_id)
                         (turn_prefix session_id ++ xff4);
  turns ← parse_turns values [];
  turns ← lift_result (list_sort sort_key turns);
  mret turns.

Definition get_session_turn (session_id turn_id : str) : M (option Turn) :=
  value ← kvstore_get (turn_key session_id turn_id);
  if falsy value then mret None
  else turn ← loads (default [] value);
       mret (Some turn).

Definition set_in_progress_tool_call_step
    (session_id turn_id : str) (step : ToolExecutionStep) : M unit :=
  kvstore_set (step_key session_id turn_id) (model_dump_json step).

Definition get_in_progress_tool_call_step
    (session_id turn_id : str) : M (option ToolExecutionStep) :=
  value ← kvstore_get (step_key session_id turn_id);
  if falsy value then mret None
  else step ← loads (default [] value);
       mret (Some step).
End AgentPersistence.

(** ** Vocabulary of the statements *)

Section vocabulary.
Context (agent_id : str) `{BaseModel Turn}.

(** What the scan loop keeps of the values it is given, and what it logs. *)
Definition parsed (values : list str) : list Turn :=
  omap (λ v, ok_of (model_validate v)) values.

Definition parse_errors (values : list str) : list str :=
  omap (λ v, match model_validate (A:=Turn) v with
             | Ok _ => None
             | Raise e => Some (lit "Error parsing turn: " ++ exn_str e)
             end) values.

(** Adding a sequence of turns to one session, first to last. *)
Fixpoint add_turns (session_id : str) (turns : list Turn) : M unit :=
  match turns with
  | [] => mret ()
  | turn :: turns' =>
      add_turn_to_session agent_id session_id turn;;
      add_turns session_id turns'
  end.

(** The store after those additions, and the item each turn is stored as. *)
Definition turn_item (session_id : str) (turn : Turn) : str * str :=
  (turn_key agent_id session_id (turn_id turn), model_dump_json turn).

Definition store_turns (session_id : str) (turns : list Turn)
    (σ : gmap str str) : gmap str str :=
  foldl (λ σ turn, <[(turn_item session_id turn).1 :=
                      (turn_item session_id turn).2]> σ) σ turns.

(** The keys that another session, or another key family, owns: the
    metadata key of a delimiter-free session id, an in-progress step key,
    and a turn key of a different delimiter-free (agent, session) pair.
    The restriction to delimiter-free ids is needed: ids are interpolated
    as they are, so the turn key of turn [t] in session [s] is also the
    metadata key of the id [s ++ ":" ++ t]. *)
Definition foreign_key (session_id k : str) : Prop :=
  (∃ a s, colon_free a ∧ colon_free s ∧ k = session_key a s)
  ∨ (∃ a s t, k = step_key a s t)
  ∨ (∃ a s t, colon_free a ∧ colon_free s
              ∧ (a, s) ≠ (agent_id, session_id) ∧ k = turn_key a s t).
End vocabulary.

(** A step from store [σ] to store [σ'] that sets key [k] to [v] and leaves
    every other key as it was. *)
Definition writes_exactly (k v : str) (σ σ' : gmap str str) : Prop :=
  σ' !! k = Some v ∧ ∀ k', k' ≠ k → σ' !! k' = σ !! k'.

(** ** A reference serialisation

    One concrete [BaseModel] per record, used to run the operations on
    concrete worlds: a record is a tag followed by its fields, a [str] field
    is prefixed with its length, an optional field with a presence mark. *)
Module Reference.

Definition enc_str (s : str) : str := N.of_nat (length s) :: s.

Definition dec_str (l : str) : option (str * str) :=
  match l with
  | [] => None
  | n :: r =>
      if decide (N.to_nat n ≤ length r)%nat
      then Some (take (N.to_nat n) r, drop (N.to_nat n) r)
      else None
  end.

Definition enc_opt_str (o : option str) : str :=
  match o with None => [0] | Some s => 1 :: enc_str s end.

Definition dec_opt_str (l : str) : option (option str * str) :=
  match l with
  | 0 :: r => Some (None, r)
  | 1 :: r => '(s, r') ← dec_str r; Some (Some s, r')
  | _ => None
  end.

(** A datetime is its wall clock followed by its offset: a mark for naive,
    or a sign and a magnitude. *)
Definition enc_time (d : datetime) : str :=
  wall d :: match utcoffset d with
            | None => [0]
            | Some z => [if (z <? 0)%Z then 2 else 1; Z.abs_N z]
            end.

Definition dec_time (l : str) : option (datetime * str) :=
  match l with
  | t :: 0 :: r => Some (mkDatetime t None, r)
  | t :: 1 :: n :: r => Some (mkDatetime t (Some (Z.of_N n)), r)
  | t :: 2 :: n :: r =>
      if decide (n = 0) then None
      else Some (mkDatetime t (Some (- Z.of_N n)%Z), r)
  | _ => None
  end.

Definition enc_opt_time (o : option datetime) : str :=
  match o with None => [0] | Some d => 1 :: enc_time d end.

Definition dec_opt_time (l : str) : option (option datetime * str) :=
  match l with
  | 0 :: r => Some (None, r)
  | 1 :: r => '(d, r') ← dec_time r; Some (Some d, r')
  | _ => None
  end.

Definition tag_info : N := 83.
Definition tag_turn : N := 84.
Definition tag_step : N := 80.

Definition invalid {A} : result A := Raise (ParseError (lit "invalid record")).

Definition of_option {A} (o : option A) : result A :=
  match o with Some a => Ok a | None => invalid end.

Definition dump_info (i : AgentSessionInfo) : str :=
  tag_info :: enc_str (session_id i) ++ enc_str (session_name i)
    ++ enc_opt_str (vector_db_id i) ++ enc_time (started_at i).

Definition load_info (l : str) : option AgentSessionInfo :=
  match l with
  | tag :: r =>
      if decide (tag = tag_info) then
        '(sid, r) ← dec_str r;
        '(name, r) ← dec_str r;
        '(vdb, r) ← dec_opt_str r;
        '(t, r) ← dec_time r;
        match r with
        | [] => Some (mkAgentSessionInfo sid name vdb t)
        | _ => None
        end
      else None
  | [] => None
  end.

Definition dump_turn (t : Turn) : str :=
  tag_turn :: enc_str (turn_id t) ++ enc_opt_time (completed_at t)
    ++ enc_str (turn_body t).

Definition load_turn (l : str) : option Turn :=
  match l with
  | tag :: r =>
      if decide (tag = tag_turn) then
        '(tid, r) ← dec_str r;
        '(done, r) ← dec_opt_time r;
        '(body, r) ← dec_str r;
        match r with
        | [] => Some (mkTurn tid done body)
        | _ => None
        end
      else None
  | [] => None
  end.

Definition dump_step (s : ToolExecutionStep) : str :=
  tag_step :: enc_str (step_id s) ++ enc_str (step_body s).

Definition load_step (l : str) : option ToolExecutionStep :=
  match l with
  | tag :: r =>
      if decide (tag = tag_step) then
        '(sid, r) ← dec_str r;
        '(body, r) ← dec_str r;
        match r with
        | [] => Some (mkToolExecutionStep sid body)
        | _ => None
        end
      else None
  | [] => None
  end.

#[export] Instance info_model : BaseModel AgentSessionInfo :=
  {| model_dump_json := dump_info; model_validate l := of_option (load_info l) |}.

#[export] Instance turn_model : BaseModel Turn :=
  {| model_dump_json := dump_turn; model_validate l := of_option (load_turn l) |}.

#[export] Instance step_model : BaseModel ToolExecutionStep :=
  {| model_dump_json := dump_step; model_validate l := of_option (load_step l) |}.

(** A world with an empty backend; uuids and times are the call counts. *)
Definition w0 : World :=
  mkWorld ∅ [] (λ n, lit "sess-" ++ [48 + N.of_nat n])
    (λ n, naive (1000 + N.of_nat n)) 0.

Definition agent : str := lit "ag".

(** Turns used in the concrete runs. *)
Definition t_late : Turn :=
  mkTurn (lit "t1") (Some (naive 20)) (lit "first added").
Definition t_early : Turn :=
  mkTurn (lit "t2") (Some (naive 10)) (lit "second added").
Definition t_none : Turn := mkTurn (lit "t3") None (lit "still running").
Definition t_min : Turn := mkTurn (lit "t0") (Some datetime_min) (lit "epoch").
Definition t_high : Turn :=
  mkTurn (xff4 ++ lit "z") (Some (naive 5)) (lit "high id").

(** A turn stamped with an offset-aware datetime (UTC+01:00). *)
Definition t_aware : Turn :=
  mkTurn (lit "t5") (Some (mkDatetime 7200000000 (Some 3600000000%Z)))
    (lit "stamped with an offset").

Definition step1 : ToolExecutionStep := mkToolExecutionStep (lit "p1") (lit "call").
Definition step2 : ToolExecutionStep := mkToolExecutionStep (lit "p2") (lit "call").

(** A session with one good turn and one value that is no turn. *)
Definition w_corrupt : World :=
  (kvstore_set (turn_key agent (lit "s") (lit "t9")) (lit "{garbage")
     (add_turn_to_session agent (lit "s") t_late w0).2).2.

End Reference.

(** * Properties *)

(** ** String order *)

Lemma str_compare_refl a : str_compare a a = Eq.
Proof. induction a as [|x a IH]; simpl; [done|]. by rewrite N.compare_refl. Qed.

Lemma str_compare_eq a b : str_compare a b = Eq → a = b.
Proof.
  revert b. induction a as [|x a IH]; intros [|y b]; simpl; try done.
  destruct (x ?= y) eqn:E; try done.
  apply N.compare_eq_iff in E as ->. intros ?. f_equal. by apply IH.
Qed.

Lemma str_compare_antisym a b : str_compare b a = CompOpp (str_compare a b).
Proof.
  revert b. induction a as [|x a IH]; intros [|y b]; simpl; try done.
  rewrite (N.compare_antisym x y). destruct (x ?= y); simpl; auto.
Qed.

Lemma str_compare_app p a b : str_compare (p ++ a) (p ++ b) = str_compare a b.
Proof. induction p as [|x p IH]; simpl; [done|]. by rewrite N.compare_refl. Qed.

Lemma str_leb_trans a b c :
  str_leb a b = true → str_leb b c = true → str_leb a c = true.
Proof.
  unfold str_leb. revert b c.
  induction a as [|x a IH]; intros [|y b] [|z c]; simpl; try done.
  destruct (N.compare_spec x y) as [->| |]; try done;
    destruct (N.compare_spec y z) as [->| |]; try done.
  all: try apply IH.
  all: by rewrite (proj2 (N.compare_lt_iff x z)) by lia.
Qed.

Lemma str_ltb_app p a b : str_ltb (p ++ a) (p ++ b) = str_ltb a b.
Proof. unfold str_ltb. by rewrite str_compare_app. Qed.

Lemma str_leb_total a b : str_leb a b = false → str_leb b a = true.
Proof.
  unfold str_leb. rewrite (str_compare_antisym a b).
  by destruct (str_compare a b).
Qed.

Lemma str_leb_neq_ltb a b : str_leb a b = true → a ≠ b → str_ltb a b = true.
Proof.
  unfold str_leb, str_ltb. destruct (str_compare a b) eqn:E; try done.
  intros _ Hne. by apply str_compare_eq in E.
Qed.

(** The keys a prefix scan selects: exactly the extensions of the prefix by a
    remainder below the end-of-range suffix. *)
Lemma in_range_prefix p hi k :
  in_range p (p ++ hi) k = true ↔ ∃ r, k = p ++ r ∧ str_ltb r hi = true.
Proof.
  unfold in_range, str_leb, str_ltb. revert k.
  induction p as [|x p IH]; intros k; simpl.
  - destruct k; simpl; (split; [eauto|]); by intros [r [<- ?]].
  - destruct k as [|y k]; simpl.
    + split; [done|]. by intros [r [? _]].
    + rewrite (N.compare_antisym y x).
      destruct (y ?= x) eqn:E; simpl.
      * apply N.compare_eq_iff in E as ->. rewrite IH.
        split; intros [r [Hk ?]]; exists r; split; auto; congruence.
      * split; [done|]. intros [r [Hk _]]. injection Hk as -> _.
        by rewrite N.compare_refl in E.
      * split; [done|]. intros [r [Hk _]]. injection Hk as -> _.
        by rewrite N.compare_refl in E.
Qed.

(** Every id that is empty or starts below ['\xff'] (any ASCII id, a uuid)
    sorts below the end-of-range suffix. *)
Lemma str_ltb_xff4 tid :
  (∀ c, head tid = Some c → c < 255) → str_ltb tid xff4 = true.
Proof.
  destruct tid as [|c tid]; [done|]. intros Hc.
  unfold str_ltb, xff4. cbn.
  by rewrite (proj2 (N.compare_lt_iff c 255)) by auto.
Qed.

(** ** Splitting a key at its delimiters *)

Lemma colon_free_split a b x y :
  colon_free a → colon_free b →
  a ++ colon :: x = b ++ colon :: y → a = b ∧ x = y.
Proof.
  unfold colon_free. revert b.
  induction a as [|c a IH]; intros [|d b] Ha Hb; simpl; intros Heq.
  - by injection Heq.
  - injection Heq as <- _. exfalso. apply Hb. left.
  - injection Heq as -> _. exfalso. apply Ha. left.
  - injection Heq as -> Heq.
    apply not_elem_of_cons in Ha as [_ Ha], Hb as [_ Hb].
    destruct (IH b Ha Hb Heq) as [Hab Hxy]. by subst.
Qed.

(** ** Stable sorting *)

Lemma StronglySorted_weaken {A} (R1 R2 : A → A → Prop) l :
  (∀ a b, R1 a b → R2 a b) → StronglySorted R1 l → StronglySorted R2 l.
Proof.
  intros HR. induction 1 as [|x l _ IH Hx]; constructor; [done|].
  eapply Forall_impl; [exact Hx|]. auto.
Qed.

Lemma StronglySorted_lookup {A} (R : A → A → Prop) l i j a b :
  StronglySorted R l → l !! i = Some a → l !! j = Some b → (i < j)%nat → R a b.
Proof.
  intros Hl. revert i j. induction Hl as [|x l _ IH Hx]; intros i j; [done|].
  destruct i as [|i], j as [|j]; simpl; try lia.
  - intros [= <-] Hb _. rewrite Forall_forall in Hx.
    apply Hx. by eapply list_elem_of_lookup_2.
  - intros ? ? ?. apply (IH i j); auto with lia.
Qed.

Lemma StronglySorted_fmap_inv {A B} (f : A → B) (R1 : A → A → Prop)
    (R2 : B → B → Prop) l :
  (∀ x y, R2 (f x) (f y) → R1 x y) →
  StronglySorted R2 (f <$> l) → StronglySorted R1 l.
Proof.
  intros HR. induction l as [|x l IH]; simpl; intros Hl; [constructor|].
  apply StronglySorted_cons in Hl as [Hx Hl].
  constructor; [by apply IH|].
  rewrite Forall_fmap in Hx. eapply Forall_impl; [exact Hx|]. simpl. auto.
Qed.

Section sorting.
Context {A : Type} (leb : A → A → bool).

Lemma insert_by_Permutation x l : insert_by leb x l ≡ₚ x :: l.
Proof.
  induction l as [|y l IH]; simpl; [done|].
  destruct (leb x y); [done|]. rewrite IH. apply Permutation_swap.
Qed.

Lemma stable_sort_Permutation l : stable_sort leb l ≡ₚ l.
Proof.
  induction l as [|x l IH]; simpl; [done|].
  by rewrite insert_by_Permutation, IH.
Qed.

Lemma insert_by_sorted x l :
  (∀ a b, leb a b = false → leb b a = true) →
  (∀ a b c, leb a b = true → leb b c = true → leb a c = true) →
  StronglySorted (λ a b, leb a b = true) l →
  StronglySorted (λ a b, leb a b = true) (insert_by leb x l).
Proof.
  intros Htot Htrans. induction l as [|y l IH]; simpl; intros Hl.
  - repeat constructor.
  - apply StronglySorted_cons in Hl as [Hy Hl].
    destruct (leb x y) eqn:E.
    + apply StronglySorted_cons. split.
      * constructor; [done|]. eapply Forall_impl; [exact Hy|]. simpl. eauto.
      * by apply StronglySorted_cons.
    + apply StronglySorted_cons. split; [|by apply IH].
      rewrite insert_by_Permutation. constructor; auto.
Qed.

Lemma stable_sort_sorted l :
  (∀ a b, leb a b = false → leb b a = true) →
  (∀ a b c, leb a b = true → leb b c = true → leb a c = true) →
  StronglySorted (λ a b, leb a b = true) (stable_sort leb l).
Proof.
  intros Htot Htrans. induction l as [|x l IH]; simpl.
  - constructor.
  - by apply insert_by_sorted.
Qed.
End sorting.

Section sort_on.
Context {A : Type} (key : A → Z).

Lemma sort_on_Permutation l : sort_on key l ≡ₚ l.
Proof. apply stable_sort_Permutation. Qed.

Lemma sort_on_sorted l :
  StronglySorted (λ a b, key a ≤ key b)%Z (sort_on key l).
Proof.
  unfold sort_on.
  eapply (StronglySorted_weaken (λ a b, (key a <=? key b)%Z = true)).
  - intros a b. apply Z.leb_le.
  - apply stable_sort_sorted.
    + intros a b. rewrite Z.leb_gt, Z.leb_le. lia.
    + intros a b c. rewrite !Z.leb_le. lia.
Qed.

(** Stability: elements that share a sort key come out in the order they
    went in. *)
Lemma insert_by_key_filter k x l :
  filter (λ a, key a = k) (insert_by (λ a b, key a <=? key b)%Z x l)
  = filter (λ a, key a = k) (x :: l).
Proof.
  induction l as [|y l IH]; simpl; [done|].
  destruct (key x <=? key y)%Z eqn:E; [done|].
  apply Z.leb_gt in E.
  rewrite (filter_cons _ y (insert_by _ _ _)), IH, !filter_cons.
  repeat case_decide; try done; lia.
Qed.

Lemma sort_on_stable k l :
  filter (λ a, key a = k) (sort_on key l) = filter (λ a, key a = k) l.
Proof.
  unfold sort_on. induction l as [|x l IH]; simpl; [done|].
  rewrite insert_by_key_filter, !filter_cons. by rewrite IH.
Qed.

(** When the input is in scan order [R], the output is ordered by sort key
    first and by [R] among equal keys. *)
Lemma sort_on_lex (R : A → A → Prop) l :
  StronglySorted R l →
  StronglySorted (λ a b, (key a < key b)%Z ∨ (key a = key b ∧ R a b))
    (sort_on key l).
Proof.
  unfold sort_on. induction l as [|x l IH]; simpl; intros Hl; [constructor|].
  apply StronglySorted_cons in Hl as [Hx Hl]. specialize (IH Hl).
  rewrite <- (stable_sort_Permutation (λ a b, key a <=? key b)%Z l) in Hx.
  clear Hl. induction (stable_sort _ l) as [|y s IHs]; simpl.
  - repeat constructor.
  - apply StronglySorted_cons in IH as [Hy Hs].
    apply Forall_cons in Hx as [Hxy Hxs].
    destruct (key x <=? key y)%Z eqn:E.
    + apply Z.leb_le in E. apply StronglySorted_cons. split.
      * constructor.
        { destruct (decide (key x = key y)); [by right|left; lia]. }
        rewrite Forall_forall in Hy, Hxs |- *. intros z Hz.
        specialize (Hy z Hz). specialize (Hxs z Hz).
        destruct (decide (key x = key z)); [by right|left].
        destruct Hy as [?|[? _]]; lia.
      * by apply StronglySorted_cons.
    + apply Z.leb_gt in E. apply StronglySorted_cons. split; [|by apply IHs].
      rewrite insert_by_Permutation. constructor; [by left|done].
Qed.
End sort_on.

(** ** Sorting by datetime keys *)

Lemma uniform_cons d ds :
  uniform (d :: ds) = true ↔ Forall (λ d', aware d' = aware d) ds.
Proof.
  simpl. induction ds as [|d' ds IH]; simpl.
  - split; [constructor|done].
  - rewrite andb_true_iff, IH, Forall_cons.
    destruct (aware d), (aware d'); simpl; intuition congruence.
Qed.

Lemma uniform_alike ds :
  uniform ds = true ↔ ∀ a b, a ∈ ds → b ∈ ds → aware a = aware b.
Proof.
  destruct ds as [|d ds]; [split; [by intros _ a b ?%elem_of_nil|done]|].
  rewrite uniform_cons, Forall_forall. split.
  - intros Hd a b Ha Hb.
    assert (∀ c, c ∈ d :: ds → aware c = aware d) as Hall.
    { intros c [->|Hc]%elem_of_cons; auto. }
    by rewrite (Hall a Ha), (Hall b Hb).
  - intros Hall c Hc. apply Hall; [by right|left].
Qed.

Lemma uniform_Permutation ds ds' : ds ≡ₚ ds' → uniform ds = uniform ds'.
Proof.
  intros Hp.
  destruct (uniform ds) eqn:Hu, (uniform ds') eqn:Hu'; try done.
  - rewrite <- Hu'. symmetry. apply uniform_alike. intros a b Ha Hb.
    apply (proj1 (uniform_alike _) Hu); by rewrite Hp.
  - rewrite <- Hu. apply uniform_alike. intros a b Ha Hb.
    apply (proj1 (uniform_alike _) Hu'); by rewrite <- Hp.
Qed.

#[global] Instance uniform_Proper : Proper ((≡ₚ) ==> (=)) uniform.
Proof. intros ds ds'. apply uniform_Permutation. Qed.

Section list_sort.
Context {A : Type} (key : A → datetime).

Lemma insort_alike x s :
  Forall (λ y, aware (key y) = aware (key x)) s →
  insort key x s
  = Ok (insert_by (λ a b, instant (key a) <=? instant (key b))%Z x s).
Proof.
  induction 1 as [|y s Hy _ IH]; simpl; [done|].
  unfold datetime_lt. rewrite Hy, eqb_reflx, Z.ltb_antisym.
  destruct (instant (key x) <=? instant (key y))%Z; simpl; [done|].
  by rewrite IH.
Qed.

Lemma insort_unlike x y s :
  aware (key y) ≠ aware (key x) → insort key x (y :: s) = Raise type_error.
Proof.
  intros Hne. simpl. unfold datetime_lt.
  by destruct (aware (key y)), (aware (key x)).
Qed.

(** [list.sort] with datetime keys returns the stable sort by instant when
    the keys are all naive or all aware, and raises otherwise. *)
Lemma list_sort_spec l :
  list_sort key l
  = if uniform (key <$> l) then Ok (sort_on (instant ∘ key) l)
    else Raise type_error.
Proof.
  induction l as [|x l IH]; [done|]. cbn [list_sort]. rewrite IH.
  destruct (uniform (key <$> x :: l)) eqn:Hxl.
  - rewrite fmap_cons in Hxl. pose proof Hxl as Hall.
    apply uniform_cons in Hall.
    assert (uniform (key <$> l) = true) as ->.
    { apply uniform_alike. intros a b Ha Hb. rewrite Forall_forall in Hall.
      by rewrite (Hall a Ha), (Hall b Hb). }
    apply insort_alike. rewrite Forall_fmap in Hall.
    by rewrite (sort_on_Permutation (instant ∘ key) l).
  - destruct (uniform (key <$> l)) eqn:Hl; [|done].
    rewrite fmap_cons in Hxl.
    assert (¬ Forall (λ d', aware d' = aware (key x)) (key <$> l)) as Hsome.
    { intros Hall%uniform_cons. congruence. }
    destruct (sort_on (instant ∘ key) l) as [|y s] eqn:Hs.
    + exfalso. apply Hsome.
      pose proof (sort_on_Permutation (instant ∘ key) l) as Hp.
      rewrite Hs in Hp. apply Permutation_nil_l in Hp as <-. constructor.
    + apply insort_unlike. intros Hy. apply Hsome.
      assert (y ∈ l) as Hyl.
      { rewrite <- (sort_on_Permutation (instant ∘ key) l), Hs. left. }
      apply Forall_forall. intros d Hd. rewrite <- Hy.
      apply (proj1 (uniform_alike _) Hl); [done|].
      by apply list_elem_of_fmap_2.
Qed.

Lemma list_sort_alike l :
  uniform (key <$> l) = true →
  list_sort key l = Ok (sort_on (instant ∘ key) l).
Proof. intros Hu. by rewrite list_sort_spec, Hu. Qed.

Lemma list_sort_unlike l :
  uniform (key <$> l) = false → list_sort key l = Raise type_error.
Proof. intros Hu. by rewrite list_sort_spec, Hu. Qed.
End list_sort.

(** ** The backend's range scan *)

Section range.
Context (start_key end_key : str) (σ : gmap str str).

Lemma range_items_Permutation :
  range_items start_key end_key σ
  ≡ₚ filter (λ p : str * str, in_range start_key end_key p.1) (map_to_list σ).
Proof. apply stable_sort_Permutation. Qed.

Lemma elem_of_range_items k v :
  (k, v) ∈ range_items start_key end_key σ
  ↔ σ !! k = Some v ∧ in_range start_key end_key k = true.
Proof.
  rewrite range_items_Permutation, list_elem_of_filter, elem_of_map_to_list.
  simpl. rewrite Is_true_true. tauto.
Qed.

Lemma range_items_NoDup : NoDup (range_items start_key end_key σ).*1.
Proof.
  rewrite range_items_Permutation.
  apply (sublist_NoDup _ (map_to_list σ).*1).
  - apply NoDup_fst_map_to_list.
  - apply fmap_sublist, sublist_filter.
Qed.

(** The scan answers in strictly increasing key order. *)
Lemma range_items_sorted :
  StronglySorted (λ p q : str * str, str_ltb p.1 q.1 = true)
    (range_items start_key end_key σ).
Proof.
  pose proof range_items_NoDup as Hnd.
  assert (StronglySorted (λ p q : str * str, str_leb p.1 q.1 = true)
            (range_items start_key end_key σ)) as Hs.
  { apply stable_sort_sorted.
    - intros a b. apply str_leb_total.
    - intros a b c. apply str_leb_trans. }
  induction Hs as [|p l Hl IH Hp]; [constructor|].
  rewrite fmap_cons in Hnd. apply NoDup_cons in Hnd as [Hnotin Hnd].
  constructor; [by apply IH|].
  rewrite Forall_forall in Hp |- *. intros q Hq.
  apply str_leb_neq_ltb; [by apply Hp|].
  intros Heq. apply Hnotin. rewrite Heq. by apply list_elem_of_fmap_2.
Qed.
End range.

(** ** Running the operations *)

Lemma with_log_nil w : with_log (λ l, l ++ []) w = w.
Proof. destruct w. unfold with_log. simpl. by rewrite app_nil_r. Qed.

Lemma with_log_app a b w :
  with_log (λ l, l ++ b) (with_log (λ l, l ++ a) w) = with_log (λ l, l ++ (a ++ b)) w.
Proof. unfold with_log. simpl. by rewrite app_assoc. Qed.

Section run.
Context (agent_id : str).
Context `{BaseModel AgentSessionInfo, BaseModel Turn,
          BaseModel ToolExecutionStep}.

Lemma parse_turns_run values turns w :
  parse_turns values turns w
  = (Ok (turns ++ parsed values), with_log (λ l, l ++ parse_errors values) w).
Proof.
  revert turns w. induction values as [|v values IH]; intros turns w; simpl.
  - unfold mret, M_ret, ret. by rewrite app_nil_r, with_log_nil.
  - unfold parsed, parse_errors. simpl.
    destruct (model_validate v) as [t|e]; simpl.
    + rewrite IH. by rewrite <- app_assoc.
    + unfold mbind, M_bind, bind, log_error. rewrite IH.
      by rewrite with_log_app.
Qed.

Lemma get_session_turns_run session_id w :
  get_session_turns agent_id session_id w
  = (list_sort sort_key
       (parsed (range_items (turn_prefix agent_id session_id)
                  (turn_prefix agent_id session_id ++ xff4) (kv w)).*2),
     with_log (λ l, l ++ parse_errors
                 (range_items (turn_prefix agent_id session_id)
                    (turn_prefix agent_id session_id ++ xff4) (kv w)).*2) w).
Proof.
  unfold get_session_turns, mbind, M_bind, bind, kvstore_range, lift_result.
  rewrite parse_turns_run. cbn [app]. by destruct (list_sort _ _).
Qed.

Lemma turn_key_prefix session_id turn_id :
  turn_key agent_id session_id turn_id = turn_prefix agent_id session_id ++ turn_id.
Proof. unfold turn_key, turn_prefix. by rewrite <- !app_assoc. Qed.

(** A key is scanned for a session exactly when it is one of its turn keys
    with a turn id below the end-of-range suffix. *)
Lemma scanned_iff session_id k :
  in_range (turn_prefix agent_id session_id)
           (turn_prefix agent_id session_id ++ xff4) k = true
  ↔ ∃ turn_id, k = turn_key agent_id session_id turn_id
               ∧ str_ltb turn_id xff4 = true.
Proof.
  rewrite in_range_prefix.
  split; intros [r [-> Hr]]; exists r; by rewrite turn_key_prefix in *.
Qed.
End run.

(** ** The key schema *)

Lemma turn_key_inj agent_id session_id t1 t2 :
  turn_key agent_id session_id t1 = turn_key agent_id session_id t2 → t1 = t2.
Proof. unfold turn_key. intros Heq. by repeat apply app_inv_head in Heq. Qed.

Lemma colon_free_not_app (s x y : str) : colon_free s → s ≠ x ++ colon :: y.
Proof.
  unfold colon_free. intros Hs ->. apply Hs.
  apply elem_of_app. right. left.
Qed.

(** With delimiter-free agent and session ids, a turn key of a session is no
    metadata key, no step key, and no turn key of another session. *)
Lemma turn_key_not_foreign agent_id session_id turn_id :
  colon_free agent_id → colon_free session_id →
  ¬ foreign_key agent_id session_id (turn_key agent_id session_id turn_id).
Proof.
  intros Hag Hsid [(a & s & Ha & Hs & Heq)|[(a & s & t & Heq)|
                   (a & s & t & Ha & Hs & Hne & Heq)]].
  - unfold turn_key, session_key in Heq. apply app_inv_head in Heq.
    apply colon_free_split in Heq as [_ Heq]; [|done..].
    symmetry in Heq. by apply colon_free_not_app in Heq.
  - unfold turn_key, step_key in Heq. by vm_compute (lit _) in Heq.
  - unfold turn_key in Heq. apply app_inv_head in Heq.
    apply colon_free_split in Heq as [-> Heq]; [|done..].
    apply colon_free_split in Heq as [-> _]; [|done..].
    by apply Hne.
Qed.

(** ** Point reads and single-key writes *)

Lemma writes_exactly_insert (k v : str) (σ : gmap str str) :
  writes_exactly k v σ (<[k:=v]> σ).
Proof.
  split; [apply lookup_insert_eq|]. intros k' Hne. by apply lookup_insert_ne.
Qed.

Section claims.
Context (agent_id : str).
Context `{BaseModel AgentSessionInfo, BaseModel Turn,
          BaseModel ToolExecutionStep}.

Lemma falsy_dump {A} `{BaseModelLaws A} (x : A) :
  falsy (Some (model_dump_json x)) = false.
Proof.
  pose proof (dump_truthy x). by destruct (model_dump_json x).
Qed.

Ltac run_read Hk :=
  unfold get_session_info, get_session_turn, get_in_progress_tool_call_step,
    mbind, M_bind, bind, kvstore_get;
  rewrite Hk; simpl.

Lemma get_session_info_unset session_id w :
  falsy (kv w !! session_key agent_id session_id) = true →
  get_session_info agent_id session_id w = (Ok None, w).
Proof.
  intros Hk. unfold get_session_info, mbind, M_bind, bind, kvstore_get.
  by rewrite Hk.
Qed.

Lemma get_session_info_set session_id v w :
  kv w !! session_key agent_id session_id = Some v → v ≠ [] →
  get_session_info agent_id session_id w
  = (match model_validate v with
     | Ok info => Ok (Some info)
     | Raise e => Raise e
     end, w).
Proof.
  intros Hk Hv. run_read Hk. destruct v; [done|]. unfold loads. simpl.
  by destruct (model_validate _).
Qed.

Lemma get_session_info_world session_id w :
  (get_session_info agent_id session_id w).2 = w.
Proof.
  unfold get_session_info, mbind, M_bind, bind, kvstore_get.
  destruct (falsy _); [done|]. unfold loads.
  by destruct (model_validate _).
Qed.

Lemma get_session_turn_unset session_id turn_id w :
  falsy (kv w !! turn_key agent_id session_id turn_id) = true →
  get_session_turn agent_id session_id turn_id w = (Ok None, w).
Proof.
  intros Hk. unfold get_session_turn, mbind, M_bind, bind, kvstore_get.
  by rewrite Hk.
Qed.

Lemma get_session_turn_set session_id turn_id v w :
  kv w !! turn_key agent_id session_id turn_id = Some v → v ≠ [] →
  get_session_turn agent_id session_id turn_id w
  = (match model_validate v with
     | Ok turn => Ok (Some turn)
     | Raise e => Raise e
     end, w).
Proof.
  intros Hk Hv. run_read Hk. destruct v; [done|]. unfold loads. simpl.
  by destruct (model_validate _).
Qed.

Lemma get_step_unset session_id turn_id w :
  falsy (kv w !! step_key agent_id session_id turn_id) = true →
  get_in_progress_tool_call_step agent_id session_id turn_id w = (Ok None, w).
Proof.
  intros Hk.
  unfold get_in_progress_tool_call_step, mbind, M_bind, bind, kvstore_get.
  by rewrite Hk.
Qed.

Lemma get_step_set session_id turn_id v w :
  kv w !! step_key agent_id session_id turn_id = Some v → v ≠ [] →
  get_in_progress_tool_call_step agent_id session_id turn_id w
  = (match model_validate v with
     | Ok step => Ok (Some step)
     | Raise e => Raise e
     end, w).
Proof.
  intros Hk Hv. run_read Hk. destruct v; [done|]. unfold loads. simpl.
  by destruct (model_validate _).
Qed.

(** C4, as amended.  A point read ([get_session_turn],
    [get_in_progress_tool_call_step]) answers absent, without raising and
    without touching the world, when its key is unset or holds the empty
    text; when the key holds a non-empty value that fails to deserialise,
    the read raises that failure instead of answering absent. *)
Theorem point_reads_absent_or_raise session_id turn_id w :
  (kv w !! turn_key agent_id session_id turn_id = None →
     get_session_turn agent_id session_id turn_id w = (Ok None, w))
  ∧ (kv w !! turn_key agent_id session_id turn_id = Some [] →
     get_session_turn agent_id session_id turn_id w = (Ok None, w))
  ∧ (∀ v e, kv w !! turn_key agent_id session_id turn_id = Some v → v ≠ [] →
       model_validate (A:=Turn) v = Raise e →
       get_session_turn agent_id session_id turn_id w = (Raise e, w))
  ∧ (kv w !! step_key agent_id session_id turn_id = None →
     get_in_progress_tool_call_step agent_id session_id turn_id w = (Ok None, w))
  ∧ (kv w !! step_key agent_id session_id turn_id = Some [] →
     get_in_progress_tool_call_step agent_id session_id turn_id w = (Ok None, w))
  ∧ (∀ v e, kv w !! step_key agent_id session_id turn_id = Some v → v ≠ [] →
       model_validate (A:=ToolExecutionStep) v = Raise e →
       get_in_progress_tool_call_step agent_id session_id turn_id w = (Raise e, w)).
Proof.
  repeat split.
  - intros Hk. apply get_session_turn_unset. by rewrite Hk.
  - intros Hk. apply get_session_turn_unset. by rewrite Hk.
  - intros v e Hk Hv He. rewrite (get_session_turn_set _ _ v) by done.
    by rewrite He.
  - intros Hk. apply get_step_unset. by rewrite Hk.
  - intros Hk. apply get_step_unset. by rewrite Hk.
  - intros v e Hk Hv He. rewrite (get_step_set _ _ v) by done.
    by rewrite He.
Qed.

(** C5.  For every session name, [create_session] returns an identifier
    under which [get_session_info] then finds a record carrying that name,
    the time read from the clock during creation (the call after the one
    that drew the uuid), and no vector db. *)
Theorem create_session_then_get_session_info
    `{!BaseModelLaws AgentSessionInfo} name w :
  ∃ session_id w1 info,
    create_session agent_id name w = (Ok session_id, w1)
    ∧ get_session_info agent_id session_id w1 = (Ok (Some info), w1)
    ∧ session_name info = name
    ∧ started_at info = time_seq w (S (tick w))
    ∧ vector_db_id info = None.
Proof.
  set (sid := uuid_seq w (tick w)).
  set (info := mkAgentSessionInfo sid name None (time_seq w (S (tick w)))).
  exists sid,
    (with_kv (insert (session_key agent_id sid) (model_dump_json info))
       (with_tick (with_tick w))), info.
  split; [reflexivity|]. split; [|done].
  erewrite get_session_info_set.
  - by rewrite validate_dump.
  - simpl. apply lookup_insert_eq.
  - apply dump_truthy.
Qed.

(** C6.  When the session-metadata key of a session id is unset,
    [add_vector_db_to_session] raises the not-found [ValueError] and leaves
    the world, the backend included, as it was. *)
Theorem add_vector_db_to_session_not_found session_id vector_db_id w :
  kv w !! session_key agent_id session_id = None →
  add_vector_db_to_session agent_id session_id vector_db_id w
  = (Raise (ValueError (lit "Session " ++ session_id ++ lit " not found")), w).
Proof.
  intros Hk. unfold add_vector_db_to_session, mbind, M_bind, bind.
  rewrite get_session_info_unset; [done|]. by rewrite Hk.
Qed.

(** C7.  On an existing session, [add_vector_db_to_session] succeeds and
    the record found afterwards differs from the one found before in its
    [vector_db_id] only. *)
Theorem add_vector_db_to_session_frame
    `{!BaseModelLaws AgentSessionInfo} sid vdb info w :
  (get_session_info agent_id sid w).1 = Ok (Some info) →
  ∃ w' info',
    add_vector_db_to_session agent_id sid vdb w = (Ok (), w')
    ∧ get_session_info agent_id sid w' = (Ok (Some info'), w')
    ∧ session_id info' = session_id info
    ∧ session_name info' = session_name info
    ∧ started_at info' = started_at info
    ∧ vector_db_id info' = Some vdb.
Proof.
  intros Hget.
  pose proof (get_session_info_world sid w) as Hw.
  destruct (get_session_info agent_id sid w) as [r w1] eqn:E.
  simpl in Hget, Hw. subst r w1.
  eexists _, (set_vector_db_id info (Some vdb)).
  split; [|split; [|done]].
  - unfold add_vector_db_to_session, mbind, M_bind, bind. rewrite E.
    reflexivity.
  - erewrite get_session_info_set.
    + by rewrite validate_dump.
    + simpl. apply lookup_insert_eq.
    + apply dump_truthy.
Qed.
(** C8.  Two consecutive [set_in_progress_tool_call_step] calls for one
    (session, turn) pair with different steps leave the world exactly as
    the second call alone would: the key holds the second step's dump,
    [get_in_progress_tool_call_step] answers the second step, and so does
    not answer the first. *)
Theorem set_in_progress_tool_call_step_overwrites
    `{!BaseModelLaws ToolExecutionStep} session_id turn_id s1 s2 w :
  s1 ≠ s2 →
  let w1 := (set_in_progress_tool_call_step agent_id session_id turn_id s1 w).2 in
  let w2 := (set_in_progress_tool_call_step agent_id session_id turn_id s2 w1).2 in
  get_in_progress_tool_call_step agent_id session_id turn_id w2 = (Ok (Some s2), w2)
  ∧ (get_in_progress_tool_call_step agent_id session_id turn_id w2).1 ≠ Ok (Some s1)
  ∧ kv w2 !! step_key agent_id session_id turn_id = Some (model_dump_json s2)
  ∧ w2 = (set_in_progress_tool_call_step agent_id session_id turn_id s2 w).2.
Proof.
  intros Hne w1 w2.
  assert (kv w2 !! step_key agent_id session_id turn_id
          = Some (model_dump_json s2)) as Hk by apply lookup_insert_eq.
  assert (get_in_progress_tool_call_step agent_id session_id turn_id w2
          = (Ok (Some s2), w2)) as Hget.
  { rewrite (get_step_set _ _ _ _ Hk) by apply dump_truthy.
    by rewrite validate_dump. }
  repeat split; try done.
  - rewrite Hget. simpl. congruence.
  - unfold w2, w1, set_in_progress_tool_call_step, kvstore_set, with_kv. simpl.
    by rewrite insert_insert_eq.
Qed.

(** C9.  No read operation writes to the backend: after
    [get_session_info], [get_session_turns], [get_session_turn] or
    [get_in_progress_tool_call_step], on any input and in any world, the
    store is what it was before. *)
Theorem reads_leave_store_unchanged session_id turn_id w :
  kv (get_session_info agent_id session_id w).2 = kv w
  ∧ kv (get_session_turns agent_id session_id w).2 = kv w
  ∧ kv (get_session_turn agent_id session_id turn_id w).2 = kv w
  ∧ kv (get_in_progress_tool_call_step agent_id session_id turn_id w).2 = kv w.
Proof.
  repeat split.
  - by rewrite get_session_info_world.
  - by rewrite get_session_turns_run.
  - unfold get_session_turn, mbind, M_bind, bind, kvstore_get.
    destruct (falsy _); [done|]. unfold loads.
  by destruct (model_validate _).
  - unfold get_in_progress_tool_call_step, mbind, M_bind, bind, kvstore_get.
    destruct (falsy _); [done|]. unfold loads.
  by destruct (model_validate _).
Qed.

(** C10.  A mutation that succeeds sets one key, the one the key schema
    derives from its arguments (for [create_session], from the identifier
    it returns), to the dump of its record, and leaves the value of every
    other key as it was.  For [add_vector_db_to_session] the record is the
    one read before the call with the new vector db. *)
Theorem mutations_write_one_key w :
  (∀ name session_id w',
     create_session agent_id name w = (Ok session_id, w') →
     writes_exactly (session_key agent_id session_id)
       (model_dump_json
          (mkAgentSessionInfo session_id name None (time_seq w (S (tick w)))))
       (kv w) (kv w'))
  ∧ (∀ session_id vector_db_id w',
     add_vector_db_to_session agent_id session_id vector_db_id w = (Ok (), w') →
     ∃ info,
       (get_session_info agent_id session_id w).1 = Ok (Some info)
       ∧ writes_exactly (session_key agent_id session_id)
           (model_dump_json (set_vector_db_id info (Some vector_db_id)))
           (kv w) (kv w'))
  ∧ (∀ session_id turn w',
     add_turn_to_session agent_id session_id turn w = (Ok (), w') →
     writes_exactly (turn_key agent_id session_id (turn_id turn))
       (model_dump_json turn) (kv w) (kv w'))
  ∧ (∀ session_id turn_id step w',
     set_in_progress_tool_call_step agent_id session_id turn_id step w = (Ok (), w') →
     writes_exactly (step_key agent_id session_id turn_id)
       (model_dump_json step) (kv w) (kv w')).
Proof.
  split; [|split; [|split]].
  - intros name session_id w' [= <- <-]. apply writes_exactly_insert.
  - intros session_id vector_db_id w'.
    unfold add_vector_db_to_session, mbind, M_bind, bind.
    pose proof (get_session_info_world session_id w) as Hw.
    destruct (get_session_info agent_id session_id w) as [[[info|]|e] w1];
      simpl in Hw; subst w1; try done.
    intros [= <-]. exists info. split; [done|]. apply writes_exactly_insert.
  - intros session_id turn w' [= <-]. apply writes_exactly_insert.
  - intros session_id turn_id step w' [= <-]. apply writes_exactly_insert.
Qed.

Lemma parsed_length values :
  (length (parsed values) + length (parse_errors values) = length values)%nat.
Proof.
  unfold parsed, parse_errors.
  induction values as [|v values IH]; cbn; [done|].
  destruct (model_validate v); cbn in *; lia.
Qed.

(** C3, as amended.  Whatever mix of values the range scan of a session
    answers, a value that fails to deserialise never makes
    [get_session_turns] raise: it costs one logged error and contributes no
    turn.  When the sort keys of the turns that do deserialise can be
    ordered with one another (all naive or absent, or all aware), the call
    returns those turns, each of them; when they cannot, the sort, which
    runs outside the [try], raises its [TypeError]. *)
Theorem get_session_turns_skips_corrupt session_id values w w1 :
  kvstore_range (turn_prefix agent_id session_id)
                (turn_prefix agent_id session_id ++ xff4) w = (Ok values, w1) →
  ∃ w',
    log w' = log w ++ parse_errors values
    ∧ (uniform (sort_key <$> parsed values) = true →
       ∃ r,
         get_session_turns agent_id session_id w = (Ok r, w')
         ∧ r ≡ₚ parsed values
         ∧ (∀ v t, v ∈ values → model_validate v = Ok t → t ∈ r)
         ∧ (∀ t, t ∈ r → ∃ v, v ∈ values ∧ model_validate v = Ok t)
         ∧ (length r + length (parse_errors values) = length values)%nat)
    ∧ (uniform (sort_key <$> parsed values) = false →
       get_session_turns agent_id session_id w = (Raise type_error, w')).
Proof.
  intros [= <- <-]. rewrite get_session_turns_run.
  set (values := (range_items _ _ _).*2).
  exists (with_log (λ l, l ++ parse_errors values) w).
  split; [done|]. split.
  - intros Hu. rewrite (list_sort_alike _ _ Hu). eexists.
    split; [reflexivity|].
    split; [apply sort_on_Permutation|].
    split; [|split].
    + intros v t Hv Ht. rewrite sort_on_Permutation.
      apply list_elem_of_omap. exists v. by rewrite Ht.
    + intros t. rewrite sort_on_Permutation. intros Ht.
      apply list_elem_of_omap in Ht as (v & Hv & Ht). exists v. split; [done|].
      by destruct (model_validate v) as [t'|]; simplify_eq/=.
    + rewrite sort_on_Permutation. apply parsed_length.
  - intros Hu. by rewrite (list_sort_unlike _ _ Hu).
Qed.

(** C1, as amended.  Let the agent id and the session id contain no
    delimiter.  No key occurs twice among the items [get_session_turns]
    scans, and an item is scanned exactly when the store holds it under a
    turn key of that session whose turn id sorts below the end-of-range
    suffix.  No scanned key is the metadata key of a delimiter-free session
    id, a step key, or a turn key of a different delimiter-free (agent,
    session) pair, so a session id that merely shares a prefix with this
    one contributes nothing.  When the sort keys of the scanned turns that
    deserialise can be ordered with one another, the call returns exactly
    those turns, permuted; when they cannot, it raises the sort's
    [TypeError] and returns nothing. *)
Theorem get_session_turns_scope session_id w :
  colon_free agent_id → colon_free session_id →
  ∃ items w',
    NoDup items.*1
    ∧ (∀ k v, (k, v) ∈ items
              ↔ kv w !! k = Some v
                ∧ ∃ turn_id, k = turn_key agent_id session_id turn_id
                             ∧ str_ltb turn_id xff4 = true)
    ∧ (∀ k v, (k, v) ∈ items → ¬ foreign_key agent_id session_id k)
    ∧ (uniform (sort_key <$> parsed items.*2) = true →
       ∃ r, get_session_turns agent_id session_id w = (Ok r, w')
            ∧ r ≡ₚ parsed items.*2)
    ∧ (uniform (sort_key <$> parsed items.*2) = false →
       get_session_turns agent_id session_id w = (Raise type_error, w')).
Proof.
  intros Hag Hsid. rewrite get_session_turns_run.
  eexists _, _.
  split; [apply range_items_NoDup|].
  assert (∀ k v,
    (k, v) ∈ range_items (turn_prefix agent_id session_id)
               (turn_prefix agent_id session_id ++ xff4) (kv w)
    ↔ kv w !! k = Some v
      ∧ ∃ turn_id, k = turn_key agent_id session_id turn_id
                   ∧ str_ltb turn_id xff4 = true) as Hitems.
  { intros k v. by rewrite elem_of_range_items, scanned_iff. }
  split; [done|]. split; [|split].
  - intros k v Hin. apply Hitems in Hin as (_ & turn_id & -> & _).
    by apply turn_key_not_foreign.
  - intros Hu. rewrite (list_sort_alike _ _ Hu). eexists.
    split; [reflexivity|]. apply sort_on_Permutation.
  - intros Hu. by rewrite (list_sort_unlike _ _ Hu).
Qed.

(** ** A session built by [add_turn_to_session] *)

Lemma add_turns_run session_id ts w :
  add_turns agent_id session_id ts w
  = (Ok (), with_kv (store_turns agent_id session_id ts) w).
Proof.
  revert w. induction ts as [|t ts IH]; intros w.
  - by destruct w.
  - cbn. unfold mbind, M_bind, bind, add_turn_to_session, kvstore_set.
    by rewrite IH.
Qed.

Lemma store_turns_lookup session_id ts σ k v :
  NoDup (turn_id <$> ts) →
  store_turns agent_id session_id ts σ !! k = Some v
  ↔ (∃ t, t ∈ ts ∧ (k, v) = turn_item agent_id session_id t)
    ∨ (σ !! k = Some v
       ∧ ∀ t, t ∈ ts → k ≠ turn_key agent_id session_id (turn_id t)).
Proof.
  unfold store_turns, turn_item. revert σ.
  induction ts as [|t ts IH]; intros σ Hnd; simpl.
  - split; [by right; split; [|intros t Ht; apply elem_of_nil in Ht]|].
    intros [(t & Ht & _)|[? _]]; [by apply elem_of_nil in Ht|done].
  - rewrite fmap_cons in Hnd. apply NoDup_cons in Hnd as [Hnotin Hnd].
    rewrite (IH _ Hnd). split.
    + intros [(t' & Ht' & Heq)|[Hk Hne]].
      * left. exists t'. split; [by right|done].
      * destruct (decide (turn_key agent_id session_id (turn_id t) = k))
          as [<-|Hkt].
        -- rewrite lookup_insert_eq in Hk. injection Hk as <-.
           left. exists t. split; [left|done].
        -- rewrite lookup_insert_ne in Hk by done. right. split; [done|].
           intros t' [->|Ht']%elem_of_cons; [congruence|by apply Hne].
    + intros [(t' & [->|Ht']%elem_of_cons & Heq)|[Hk Hne]].
      * injection Heq as -> ->. right. split; [apply lookup_insert_eq|].
        intros t' Ht' Heq%turn_key_inj. apply Hnotin. rewrite Heq.
        by apply list_elem_of_fmap_2.
      * left. by exists t'.
      * right. split.
        -- rewrite lookup_insert_ne; [done|].
           intros Heq. by apply (Hne t); [left|].
        -- intros t' Ht'. apply Hne. by right.
Qed.

Section fresh_session.
Context `{!BaseModelLaws Turn}.
Context (session_id : str) (ts : list Turn) (w : World).
Hypothesis fresh : ∀ k,
  in_range (turn_prefix agent_id session_id)
           (turn_prefix agent_id session_id ++ xff4) k = true →
  kv w !! k = None.
Hypothesis distinct_ids : NoDup (turn_id <$> ts).
Hypothesis below_suffix : Forall (λ t, str_ltb (turn_id t) xff4 = true) ts.

Let items : list (str * str) :=
  range_items (turn_prefix agent_id session_id)
    (turn_prefix agent_id session_id ++ xff4)
    (store_turns agent_id session_id ts (kv w)).

Lemma parsed_dump l : parsed (model_dump_json <$> l) = l.
Proof.
  unfold parsed. induction l as [|t l IH]; cbn; [done|].
  rewrite validate_dump. cbn. by rewrite IH.
Qed.

Lemma parsed_items l :
  Forall (λ p, ∃ t, p = turn_item agent_id session_id t) l →
  turn_item agent_id session_id <$> parsed l.*2 = l.
Proof.
  unfold parsed. induction 1 as [|p l [t ->] _ IH]; cbn; [done|].
  rewrite validate_dump. cbn. by rewrite IH.
Qed.

Lemma fresh_items p :
  p ∈ items ↔ ∃ t, t ∈ ts ∧ p = turn_item agent_id session_id t.
Proof.
  destruct p as [k v]. unfold items.
  rewrite elem_of_range_items, store_turns_lookup by done. split.
  - intros [[?|[Hk _]] Hin]; [done|]. by rewrite (fresh k Hin) in Hk.
  - intros (t & Ht & Heq). split; [left; eauto|].
    injection Heq as -> _. apply scanned_iff. exists (turn_id t).
    split; [done|]. rewrite Forall_forall in below_suffix. auto.
Qed.

Lemma fresh_items_Permutation :
  items ≡ₚ turn_item agent_id session_id <$> ts.
Proof.
  apply NoDup_Permutation.
  - eapply NoDup_fmap_1, range_items_NoDup.
  - apply (NoDup_fmap_1 fst).
    assert ((turn_item agent_id session_id <$> ts).*1
            = turn_key agent_id session_id <$> (turn_id <$> ts)) as ->
      by (by rewrite <- !list_fmap_compose).
    apply NoDup_fmap_2_strong; [|done].
    intros ? ? _ _. apply turn_key_inj.
  - intros p. rewrite fresh_items, list_elem_of_fmap.
    split; intros (t & ? & ?); by exists t.
Qed.

Lemma fresh_parsed_sorted :
  StronglySorted (λ a b, str_ltb (turn_id a) (turn_id b) = true)
    (parsed items.*2).
Proof.
  apply (StronglySorted_fmap_inv (turn_item agent_id session_id) _
           (λ p q, str_ltb p.1 q.1 = true)).
  - intros a b. unfold turn_item. simpl.
    by rewrite !turn_key_prefix, str_ltb_app.
  - rewrite parsed_items; [apply range_items_sorted|].
    apply Forall_forall. intros p Hp.
    apply fresh_items in Hp as (t & _ & ->). eauto.
Qed.

Lemma fresh_parsed_Permutation : parsed items.*2 ≡ₚ ts.
Proof.
  unfold parsed. rewrite fresh_items_Permutation, <- list_fmap_compose.
  apply reflexive_eq, parsed_dump.
Qed.

(** C2, as amended.  Add to a session that holds no turn yet a sequence
    of turns with pairwise-distinct turn ids below the end-of-range
    suffix.  When their sort keys [completed_at or datetime.min] can be
    ordered with one another (all naive or absent, or all aware),
    [get_session_turns] returns exactly those turns, sorted ascending by
    sort key: a turn without [completed_at] comes before every turn stamped
    otherwise than [datetime.min], and turns with equal sort keys come in
    scan order, the order of their turn ids.  When an aware [completed_at]
    stands beside a naive or absent one, the call raises the sort's
    [TypeError]. *)
Theorem get_session_turns_sorted :
  ∃ w1 w2,
    add_turns agent_id session_id ts w = (Ok (), w1)
    ∧ (uniform (sort_key <$> ts) = true →
       ∃ r,
         get_session_turns agent_id session_id w1 = (Ok r, w2)
         ∧ r ≡ₚ ts
         ∧ StronglySorted
             (λ a b, instant (sort_key a) ≤ instant (sort_key b))%Z r
         ∧ (∀ i j a b d,
              r !! i = Some a → r !! j = Some b →
              completed_at a = None → completed_at b = Some d →
              d ≠ datetime_min → (i < j)%nat)
         ∧ (∀ i j a b,
              r !! i = Some a → r !! j = Some b → (i < j)%nat →
              instant (sort_key a) = instant (sort_key b) →
              str_ltb (turn_id a) (turn_id b) = true))
    ∧ (uniform (sort_key <$> ts) = false →
       get_session_turns agent_id session_id w1 = (Raise type_error, w2)).
Proof.
  rewrite add_turns_run. eexists _, _. split; [reflexivity|].
  rewrite get_session_turns_run.
  change (kv (with_kv _ w)) with (store_turns agent_id session_id ts (kv w)).
  fold items.
  assert (uniform (sort_key <$> parsed items.*2) = uniform (sort_key <$> ts))
    as Hsame by (by rewrite fresh_parsed_Permutation).
  split.
  - intros Hu. rewrite list_sort_alike by congruence.
    eexists. split; [reflexivity|].
    assert (sort_on (instant ∘ sort_key) (parsed items.*2) ≡ₚ ts) as Hperm
      by (by rewrite sort_on_Permutation, fresh_parsed_Permutation).
    split; [done|]. split; [apply (sort_on_sorted (instant ∘ sort_key))|].
    split.
    + intros i j a b d Ha Hb Hnone Hsome Hd.
      destruct (decide (i < j)%nat) as [|Hge]; [done|exfalso].
      destruct (decide (i = j)) as [->|Hne]; [congruence|].
      pose proof (StronglySorted_lookup _ _ j i b a
                    (sort_on_sorted (instant ∘ sort_key) _) Hb Ha) as Hle.
      assert (aware (sort_key b) = aware (sort_key a)) as Haw.
      { apply (proj1 (uniform_alike _) Hu); apply list_elem_of_fmap_2;
          rewrite <- Hperm; by eapply list_elem_of_lookup_2. }
      unfold compose, sort_key in Hle. unfold sort_key in Haw.
      rewrite Hnone, Hsome in Hle, Haw.
      cbn in Hle, Haw. unfold aware in Haw. unfold instant in Hle.
      destruct d as [t [z|]]; [done|]. cbn in Hle.
      assert (t ≠ 0) by (intros ->; by apply Hd). lia.
    + intros i j a b Ha Hb Hij Hkey.
      pose proof (StronglySorted_lookup _ _ i j a b
                    (sort_on_lex (instant ∘ sort_key) _ _ fresh_parsed_sorted)
                    Ha Hb Hij) as [Hlt|[_ ?]]; [|done].
      cbn in Hlt. lia.
  - intros Hu. by rewrite list_sort_unlike by congruence.
Qed.
End fresh_session.

End claims.

(** ** Reads depend on the keys they look at *)

Lemma str_ltb_asym a b : str_ltb a b = true → str_ltb b a = true → False.
Proof.
  unfold str_ltb. rewrite (str_compare_antisym a b).
  by destruct (str_compare a b).
Qed.

(** Two stores that agree on the keys of an interval answer the same scan. *)
Lemma range_items_ext (start_key end_key : str) (σ1 σ2 : gmap str str) :
  (∀ k, in_range start_key end_key k = true → σ1 !! k = σ2 !! k) →
  range_items start_key end_key σ1 = range_items start_key end_key σ2.
Proof.
  intros Hagree.
  apply (StronglySorted_unique_strong
           (λ p q : str * str, str_ltb p.1 q.1 = true)).
  - intros p q _ _ Hpq Hqp. destruct (str_ltb_asym _ _ Hpq Hqp).
  - apply range_items_sorted.
  - apply range_items_sorted.
  - apply NoDup_Permutation.
    + eapply NoDup_fmap_1, range_items_NoDup.
    + eapply NoDup_fmap_1, range_items_NoDup.
    + intros [k v]. rewrite !elem_of_range_items.
      split; intros [Hk Hin]; (split; [|done]).
      * by rewrite <- Hagree.
      * by rewrite Hagree.
Qed.

Lemma session_key_inj agent_id s1 s2 :
  session_key agent_id s1 = session_key agent_id s2 → s1 = s2.
Proof. unfold session_key. intros Heq. by repeat apply app_inv_head in Heq. Qed.

Lemma step_key_not_session_key a s t a' s' :
  step_key a s t ≠ session_key a' s'.
Proof. unfold step_key, session_key. intros Heq. by vm_compute (lit _) in Heq. Qed.

Lemma step_key_not_turn_key a s t a' s' t' :
  step_key a s t ≠ turn_key a' s' t'.
Proof. unfold step_key, turn_key. intros Heq. by vm_compute (lit _) in Heq. Qed.

Lemma session_key_not_turn_key agent_id s s' t' :
  colon_free s → session_key agent_id s ≠ turn_key agent_id s' t'.
Proof.
  unfold session_key, turn_key. intros Hs Heq.
  do 3 apply app_inv_head in Heq. by apply colon_free_not_app in Heq.
Qed.

Lemma turn_key_split agent_id s t s' t' :
  colon_free s → colon_free s' →
  turn_key agent_id s t = turn_key agent_id s' t' → s = s' ∧ t = t'.
Proof.
  unfold turn_key. intros Hs Hs' Heq. do 3 apply app_inv_head in Heq.
  by apply colon_free_split in Heq.
Qed.

Lemma step_key_split agent_id s t s' t' :
  colon_free s → colon_free s' →
  step_key agent_id s t = step_key agent_id s' t' → s = s' ∧ t = t'.
Proof.
  unfold step_key. intros Hs Hs' Heq. do 3 apply app_inv_head in Heq.
  by apply colon_free_split in Heq.
Qed.

Section frames.
Context (agent_id : str).
Context `{BaseModel AgentSessionInfo, BaseModel Turn,
          BaseModel ToolExecutionStep}.

Lemma get_session_info_ext sid w1 w2 :
  kv w1 !! session_key agent_id sid = kv w2 !! session_key agent_id sid →
  (get_session_info agent_id sid w1).1 = (get_session_info agent_id sid w2).1.
Proof.
  intros Hk. unfold get_session_info, mbind, M_bind, bind, kvstore_get.
  rewrite Hk. destruct (falsy _); [done|]. unfold loads.
  by destruct (model_validate _).
Qed.

Lemma get_session_turn_ext sid tid w1 w2 :
  kv w1 !! turn_key agent_id sid tid = kv w2 !! turn_key agent_id sid tid →
  (get_session_turn agent_id sid tid w1).1
  = (get_session_turn agent_id sid tid w2).1.
Proof.
  intros Hk. unfold get_session_turn, mbind, M_bind, bind, kvstore_get.
  rewrite Hk. destruct (falsy _); [done|]. unfold loads.
  by destruct (model_validate _).
Qed.

Lemma get_step_ext sid tid w1 w2 :
  kv w1 !! step_key agent_id sid tid = kv w2 !! step_key agent_id sid tid →
  (get_in_progress_tool_call_step agent_id sid tid w1).1
  = (get_in_progress_tool_call_step agent_id sid tid w2).1.
Proof.
  intros Hk.
  unfold get_in_progress_tool_call_step, mbind, M_bind, bind, kvstore_get.
  rewrite Hk. destruct (falsy _); [done|]. unfold loads.
  by destruct (model_validate _).
Qed.

Lemma get_session_turns_ext sid w1 w2 :
  (∀ tid, str_ltb tid xff4 = true →
          kv w1 !! turn_key agent_id sid tid = kv w2 !! turn_key agent_id sid tid) →
  (get_session_turns agent_id sid w1).1 = (get_session_turns agent_id sid w2).1.
Proof.
  intros Hagree. rewrite !get_session_turns_run. cbn [fst].
  rewrite (range_items_ext _ _ (kv w1) (kv w2)); [done|].
  intros k (tid & -> & Hlt)%scanned_iff. by apply Hagree.
Qed.

(** What [add_vector_db_to_session] can do to the store. *)
Lemma add_vector_db_to_session_other_keys sid vdb w k :
  k ≠ session_key agent_id sid →
  kv (add_vector_db_to_session agent_id sid vdb w).2 !! k = kv w !! k.
Proof.
  intros Hne. unfold add_vector_db_to_session, mbind, M_bind, bind.
  pose proof (get_session_info_world agent_id sid w) as Hw.
  destruct (get_session_info agent_id sid w) as [[[info|]|e] w1];
    simpl in Hw; subst w1; try done.
  cbn. by rewrite lookup_insert_ne.
Qed.
End frames.

(** ** More about the operations *)

Section more.
Context (agent_id : str).
Context `{BaseModel AgentSessionInfo, BaseModel Turn,
          BaseModel ToolExecutionStep}.

(** X1.  [get_session_info] answers absent, leaving the world alone, when
    the metadata key is unset or holds the empty text; on a non-empty value
    it raises what deserialisation raises, or answers the record. *)
Theorem get_session_info_absent_or_raise sid w :
  (kv w !! session_key agent_id sid = None →
     get_session_info agent_id sid w = (Ok None, w))
  ∧ (kv w !! session_key agent_id sid = Some [] →
     get_session_info agent_id sid w = (Ok None, w))
  ∧ (∀ v e, kv w !! session_key agent_id sid = Some v → v ≠ [] →
       model_validate (A:=AgentSessionInfo) v = Raise e →
       get_session_info agent_id sid w = (Raise e, w))
  ∧ (∀ v info, kv w !! session_key agent_id sid = Some v → v ≠ [] →
       model_validate v = Ok info →
       get_session_info agent_id sid w = (Ok (Some info), w)).
Proof.
  split; [|split; [|split]].
  - intros Hk. apply get_session_info_unset. by rewrite Hk.
  - intros Hk. apply get_session_info_unset. by rewrite Hk.
  - intros v e Hk Hv He. rewrite (get_session_info_set _ _ v) by done.
    by rewrite He.
  - intros v info Hk Hv Hi. rewrite (get_session_info_set _ _ v) by done.
    by rewrite Hi.
Qed.

(** X2.  [add_vector_db_to_session] writes nothing when the session record
    cannot be read: on an empty stored text it raises the not-found
    [ValueError], on a value that fails to deserialise it raises that
    failure; the world is unchanged either way. *)
Theorem add_vector_db_to_session_unreadable sid vdb w :
  (kv w !! session_key agent_id sid = Some [] →
     add_vector_db_to_session agent_id sid vdb w
     = (Raise (ValueError (lit "Session " ++ sid ++ lit " not found")), w))
  ∧ (∀ v e, kv w !! session_key agent_id sid = Some v → v ≠ [] →
       model_validate (A:=AgentSessionInfo) v = Raise e →
       add_vector_db_to_session agent_id sid vdb w = (Raise e, w)).
Proof.
  split.
  - intros Hk. unfold add_vector_db_to_session, mbind, M_bind, bind.
    rewrite get_session_info_unset; [done|]. by rewrite Hk.
  - intros v e Hk Hv He. unfold add_vector_db_to_session, mbind, M_bind, bind.
    rewrite (get_session_info_set _ _ v) by done. by rewrite He.
Qed.

Lemma add_vector_db_to_session_run sid vdb info w :
  (get_session_info agent_id sid w).1 = Ok (Some info) →
  add_vector_db_to_session agent_id sid vdb w
  = (Ok (), with_kv (insert (session_key agent_id sid)
                       (model_dump_json (set_vector_db_id info (Some vdb)))) w).
Proof.
  intros Hget. pose proof (get_session_info_world agent_id sid w) as Hw.
  unfold add_vector_db_to_session, mbind, M_bind, bind.
  destruct (get_session_info agent_id sid w) as [r w1].
  simpl in Hget, Hw. by subst r w1.
Qed.

Lemma get_session_info_stored `{!BaseModelLaws AgentSessionInfo} sid info w :
  kv w !! session_key agent_id sid = Some (model_dump_json info) →
  get_session_info agent_id sid w = (Ok (Some info), w).
Proof.
  intros Hk. rewrite (get_session_info_set _ _ _ _ Hk) by apply dump_truthy.
  by rewrite validate_dump.
Qed.

(** X3.  A turn added to a session is what [get_session_turn] then answers
    for its turn id. *)
Theorem add_turn_then_get_session_turn `{!BaseModelLaws Turn} sid t w :
  ∃ w', add_turn_to_session agent_id sid t w = (Ok (), w')
        ∧ get_session_turn agent_id sid (turn_id t) w' = (Ok (Some t), w').
Proof.
  eexists. split; [reflexivity|].
  erewrite get_session_turn_set.
  - by rewrite validate_dump.
  - cbn. apply lookup_insert_eq.
  - apply dump_truthy.
Qed.

(** X4.  Adding a second turn under a turn id already used in the session
    replaces the first: the world is the one the second addition alone
    gives, and [get_session_turn] answers the second turn. *)
Theorem add_turn_to_session_overwrites `{!BaseModelLaws Turn} sid t1 t2 w :
  turn_id t1 = turn_id t2 →
  let w1 := (add_turn_to_session agent_id sid t1 w).2 in
  let w2 := (add_turn_to_session agent_id sid t2 w1).2 in
  w2 = (add_turn_to_session agent_id sid t2 w).2
  ∧ get_session_turn agent_id sid (turn_id t1) w2 = (Ok (Some t2), w2).
Proof.
  intros Hid w1 w2. split.
  - unfold w2, w1, add_turn_to_session, kvstore_set, with_kv. cbn.
    by rewrite Hid, insert_insert_eq.
  - erewrite get_session_turn_set.
    + by rewrite validate_dump.
    + rewrite Hid. cbn. apply lookup_insert_eq.
    + apply dump_truthy.
Qed.

(** X5.  In any world, a turn added with a turn id below the end-of-range
    suffix is among the turns the scan of its session then parses.
    [get_session_turns] has it in its result whenever it returns, and it
    returns whenever the sort keys of the parsed turns can be ordered with
    one another. *)
Theorem added_turn_is_scanned `{!BaseModelLaws Turn} sid t values w w' :
  str_ltb (turn_id t) xff4 = true →
  kvstore_range (turn_prefix agent_id sid) (turn_prefix agent_id sid ++ xff4)
    (add_turn_to_session agent_id sid t w).2 = (Ok values, w') →
  t ∈ parsed values
  ∧ (∀ r w2,
       get_session_turns agent_id sid (add_turn_to_session agent_id sid t w).2
       = (Ok r, w2) → t ∈ r)
  ∧ (uniform (sort_key <$> parsed values) = true →
     ∃ r w2,
       get_session_turns agent_id sid (add_turn_to_session agent_id sid t w).2
       = (Ok r, w2)
       ∧ t ∈ r).
Proof.
  intros Hlt [= <- <-]. rewrite get_session_turns_run.
  set (values := (range_items _ _ _).*2).
  assert (t ∈ parsed values) as Hin.
  { apply list_elem_of_omap.
    exists (model_dump_json t). split; [|by rewrite validate_dump].
    apply list_elem_of_fmap.
    exists (turn_key agent_id sid (turn_id t), model_dump_json t).
    split; [done|]. apply elem_of_range_items. split.
    - cbn. apply lookup_insert_eq.
    - apply scanned_iff. eauto. }
  split; [done|]. split.
  - intros r w2. rewrite list_sort_spec.
    destruct (uniform _); [|done]. intros [= <- _].
    by rewrite sort_on_Permutation.
  - intros Hu. rewrite (list_sort_alike _ _ Hu). eexists _, _.
    split; [reflexivity|]. by rewrite sort_on_Permutation.
Qed.

(** X6.  Adding a turn whose turn id does not sort below the end-of-range
    suffix changes nothing in what [get_session_turns] returns for that
    session. *)
Theorem high_turn_id_not_scanned sid t w :
  str_ltb (turn_id t) xff4 = false →
  (get_session_turns agent_id sid (add_turn_to_session agent_id sid t w).2).1
  = (get_session_turns agent_id sid w).1.
Proof.
  intros Hhigh. apply get_session_turns_ext. intros tid Hlt. cbn.
  apply lookup_insert_ne. intros Heq%turn_key_inj. congruence.
Qed.

Lemma get_session_turns_no_keys sid w :
  (∀ tid, str_ltb tid xff4 = true →
          kv w !! turn_key agent_id sid tid = None) →
  get_session_turns agent_id sid w = (Ok [], w).
Proof.
  intros Hnone. rewrite get_session_turns_run.
  assert (range_items (turn_prefix agent_id sid)
            (turn_prefix agent_id sid ++ xff4) (kv w) = []) as ->.
  { apply elem_of_nil_inv. intros [k v] Hin.
    apply elem_of_range_items in Hin as [Hk (tid & -> & Hlt)%scanned_iff].
    by rewrite Hnone in Hk. }
  cbn. by rewrite with_log_nil.
Qed.

(** X7.  When the store holds nothing under the turn keys of a session that
    the scan reaches, [get_session_turns] returns the empty list and leaves
    the world, log included, as it was. *)
Theorem get_session_turns_no_turns sid w :
  (∀ tid, str_ltb tid xff4 = true →
          kv w !! turn_key agent_id sid tid = None) →
  get_session_turns agent_id sid w = (Ok [], w).
Proof. apply get_session_turns_no_keys. Qed.

(** X8.  In any world, [get_session_turns] returns exactly when the sort
    keys of the turns the scan parses can be ordered with one another; what
    it returns is sorted ascending by [completed_at or datetime.min], and
    the turns that share a sort key appear in the order the scan delivered
    them.  Otherwise it raises the sort's [TypeError]. *)
Theorem get_session_turns_sorted_stable sid values w w1 :
  kvstore_range (turn_prefix agent_id sid)
                (turn_prefix agent_id sid ++ xff4) w = (Ok values, w1) →
  ∃ w',
    (uniform (sort_key <$> parsed values) = true →
     ∃ r,
       get_session_turns agent_id sid w = (Ok r, w')
       ∧ StronglySorted
           (λ a b, instant (sort_key a) ≤ instant (sort_key b))%Z r
       ∧ ∀ k, filter (λ a, instant (sort_key a) = k) r
              = filter (λ a, instant (sort_key a) = k) (parsed values))
    ∧ (uniform (sort_key <$> parsed values) = false →
       get_session_turns agent_id sid w = (Raise type_error, w')).
Proof.
  intros [= <- <-]. rewrite get_session_turns_run.
  set (values := (range_items _ _ _).*2).
  exists (with_log (λ l, l ++ parse_errors values) w). split.
  - intros Hu. rewrite (list_sort_alike _ _ Hu). eexists.
    split; [reflexivity|].
    split; [apply (sort_on_sorted (instant ∘ sort_key))|].
    intros k. apply (sort_on_stable (instant ∘ sort_key)).
  - intros Hu. by rewrite (list_sort_unlike _ _ Hu).
Qed.

(** X9.  Writing an in-progress step never changes what the session and
    turn reads answer, for any session and turn ids. *)
Theorem step_writes_leave_session_reads sid tid step sid' tid' w :
  let w' := (set_in_progress_tool_call_step agent_id sid tid step w).2 in
  (get_session_info agent_id sid' w').1 = (get_session_info agent_id sid' w).1
  ∧ (get_session_turn agent_id sid' tid' w').1
    = (get_session_turn agent_id sid' tid' w).1
  ∧ (get_session_turns agent_id sid' w').1
    = (get_session_turns agent_id sid' w).1.
Proof.
  intros w'. split; [|split].
  - apply get_session_info_ext. cbn. apply lookup_insert_ne.
    apply step_key_not_session_key.
  - apply get_session_turn_ext. cbn. apply lookup_insert_ne.
    apply step_key_not_turn_key.
  - apply get_session_turns_ext. intros t _. cbn. apply lookup_insert_ne.
    apply step_key_not_turn_key.
Qed.

(** X10.  Creating a session, attaching a vector db and adding a turn never
    change what [get_in_progress_tool_call_step] answers, for any ids. *)
Theorem session_writes_leave_step_reads sid' tid' w :
  (∀ sid t,
     (get_in_progress_tool_call_step agent_id sid' tid'
        (add_turn_to_session agent_id sid t w).2).1
     = (get_in_progress_tool_call_step agent_id sid' tid' w).1)
  ∧ (∀ name,
     (get_in_progress_tool_call_step agent_id sid' tid'
        (create_session agent_id name w).2).1
     = (get_in_progress_tool_call_step agent_id sid' tid' w).1)
  ∧ (∀ sid vdb,
     (get_in_progress_tool_call_step agent_id sid' tid'
        (add_vector_db_to_session agent_id sid vdb w).2).1
     = (get_in_progress_tool_call_step agent_id sid' tid' w).1).
Proof.
  split; [|split].
  - intros sid t. apply get_step_ext. cbn. apply lookup_insert_ne.
    intros Heq. by apply (step_key_not_turn_key _ _ _ _ _ _ (eq_sym Heq)).
  - intros name. apply get_step_ext. cbn. apply lookup_insert_ne.
    intros Heq. by apply (step_key_not_session_key _ _ _ _ _ (eq_sym Heq)).
  - intros sid vdb. apply get_step_ext.
    apply add_vector_db_to_session_other_keys. apply step_key_not_session_key.
Qed.

(** X11.  With delimiter-free session ids, adding a turn to one session
    changes neither the turn list nor any single turn of a different
    session. *)
Theorem turns_of_other_sessions_unaffected sid sid' t tid w :
  colon_free sid → colon_free sid' → sid ≠ sid' →
  let w' := (add_turn_to_session agent_id sid' t w).2 in
  (get_session_turns agent_id sid w').1 = (get_session_turns agent_id sid w).1
  ∧ (get_session_turn agent_id sid tid w').1
    = (get_session_turn agent_id sid tid w).1.
Proof.
  intros Hs Hs' Hne w'. split.
  - apply get_session_turns_ext. intros tid' _. cbn. apply lookup_insert_ne.
    intros [? _]%turn_key_split; done.
  - apply get_session_turn_ext. cbn. apply lookup_insert_ne.
    intros [? _]%turn_key_split; done.
Qed.

(** X12.  Writing the metadata of a session with a delimiter-free id, by
    [add_vector_db_to_session] or by [create_session] when the uuid drawn is
    delimiter-free, changes no session's turn list and no single turn. *)
Theorem metadata_writes_leave_turns sid tid w :
  (∀ sid' vdb, colon_free sid' →
     let w' := (add_vector_db_to_session agent_id sid' vdb w).2 in
     (get_session_turns agent_id sid w').1 = (get_session_turns agent_id sid w).1
     ∧ (get_session_turn agent_id sid tid w').1
       = (get_session_turn agent_id sid tid w).1)
  ∧ (∀ name, colon_free (uuid_seq w (tick w)) →
     let w' := (create_session agent_id name w).2 in
     (get_session_turns agent_id sid w').1 = (get_session_turns agent_id sid w).1
     ∧ (get_session_turn agent_id sid tid w').1
       = (get_session_turn agent_id sid tid w).1).
Proof.
  split.
  - intros sid' vdb Hs' w'. split.
    + apply get_session_turns_ext. intros tid' _.
      apply add_vector_db_to_session_other_keys.
      intros Heq. by apply (session_key_not_turn_key _ _ _ _ Hs' (eq_sym Heq)).
    + apply get_session_turn_ext.
      apply add_vector_db_to_session_other_keys.
      intros Heq. by apply (session_key_not_turn_key _ _ _ _ Hs' (eq_sym Heq)).
  - intros name Hid w'. split.
    + apply get_session_turns_ext. intros tid' _. cbn. apply lookup_insert_ne.
      by apply session_key_not_turn_key.
    + apply get_session_turn_ext. cbn. apply lookup_insert_ne.
      by apply session_key_not_turn_key.
Qed.

(** X13.  Adding a turn, to any session, does not change what
    [get_session_info] answers for a delimiter-free session id. *)
Theorem turn_writes_leave_session_info sid' sid t w :
  colon_free sid' →
  (get_session_info agent_id sid' (add_turn_to_session agent_id sid t w).2).1
  = (get_session_info agent_id sid' w).1.
Proof.
  intros Hs'. apply get_session_info_ext. cbn. apply lookup_insert_ne.
  intros Heq. by apply (session_key_not_turn_key _ _ _ _ Hs' (eq_sym Heq)).
Qed.

(** X14.  Ids are not escaped: the key of turn [t] in session [s] is the
    metadata key of the session id [s ++ ":" ++ turn_id t], so after the
    turn is added [get_session_info] on that id is not absent; it reads the
    turn's dump as a session record. *)
Theorem turn_key_aliases_session_key `{!BaseModelLaws Turn} sid t w :
  let w' := (add_turn_to_session agent_id sid t w).2 in
  get_session_info agent_id (sid ++ lit ":" ++ turn_id t) w'
  = (match model_validate (A:=AgentSessionInfo) (model_dump_json t) with
     | Ok info => Ok (Some info)
     | Raise e => Raise e
     end, w').
Proof.
  intros w'. apply get_session_info_set; [|apply dump_truthy].
  cbn. apply lookup_insert_eq.
Qed.
Lemma create_session_run name w :
  create_session agent_id name w
  = (Ok (uuid_seq w (tick w)),
     with_kv (insert (session_key agent_id (uuid_seq w (tick w)))
                (model_dump_json
                   (mkAgentSessionInfo (uuid_seq w (tick w)) name None
                      (time_seq w (S (tick w))))))
       (with_tick (with_tick w))).
Proof. reflexivity. Qed.

(** X15.  Two sessions created one after the other under different uuids
    are both found afterwards, each with its own name, its own id and the
    time read at its creation. *)
Theorem create_session_twice `{!BaseModelLaws AgentSessionInfo} n1 n2 w :
  let id1 := uuid_seq w (tick w) in
  let id2 := uuid_seq w (S (S (tick w))) in
  id1 ≠ id2 →
  ∃ w1 w2,
    create_session agent_id n1 w = (Ok id1, w1)
    ∧ create_session agent_id n2 w1 = (Ok id2, w2)
    ∧ get_session_info agent_id id1 w2
      = (Ok (Some (mkAgentSessionInfo id1 n1 None (time_seq w (S (tick w))))), w2)
    ∧ get_session_info agent_id id2 w2
      = (Ok (Some (mkAgentSessionInfo id2 n2 None
                     (time_seq w (S (S (S (tick w))))))), w2).
Proof.
  intros id1 id2 Hne. eexists _, _.
  split; [apply create_session_run|]. split; [apply create_session_run|]. split.
  - apply get_session_info_stored. cbn.
    rewrite lookup_insert_ne by (intros Heq%session_key_inj; done).
    apply lookup_insert_eq.
  - apply get_session_info_stored. cbn. apply lookup_insert_eq.
Qed.

(** X16.  Uuid collisions are not defended against: when the second
    [create_session] draws the uuid of the first, the first record is
    replaced and the id answers the second session. *)
Theorem create_session_collision `{!BaseModelLaws AgentSessionInfo} n1 n2 w :
  uuid_seq w (S (S (tick w))) = uuid_seq w (tick w) →
  ∃ id w1 w2,
    create_session agent_id n1 w = (Ok id, w1)
    ∧ create_session agent_id n2 w1 = (Ok id, w2)
    ∧ get_session_info agent_id id w2
      = (Ok (Some (mkAgentSessionInfo id n2 None
                     (time_seq w (S (S (S (tick w))))))), w2).
Proof.
  intros Hsame. exists (uuid_seq w (tick w)). eexists _, _.
  split; [apply create_session_run|]. split.
  - rewrite create_session_run. unfold with_kv, with_tick.
    cbn [kv log uuid_seq time_seq tick]. rewrite Hsame. reflexivity.
  - apply get_session_info_stored. unfold with_kv, with_tick.
    cbn [kv log uuid_seq time_seq tick]. apply lookup_insert_eq.
Qed.

(** X17.  Attaching a vector db twice to an existing session keeps the
    last one: the world is the one the second call alone gives, and the
    record found afterwards is the original with the second vector db. *)
Theorem add_vector_db_to_session_twice
    `{!BaseModelLaws AgentSessionInfo} sid v1 v2 info w :
  (get_session_info agent_id sid w).1 = Ok (Some info) →
  ∃ w1 w2,
    add_vector_db_to_session agent_id sid v1 w = (Ok (), w1)
    ∧ add_vector_db_to_session agent_id sid v2 w1 = (Ok (), w2)
    ∧ w2 = (add_vector_db_to_session agent_id sid v2 w).2
    ∧ get_session_info agent_id sid w2
      = (Ok (Some (set_vector_db_id info (Some v2))), w2).
Proof.
  intros Hget. eexists _, _.
  split; [by apply add_vector_db_to_session_run|].
  assert (add_vector_db_to_session agent_id sid v2
            (with_kv (insert (session_key agent_id sid)
                        (model_dump_json (set_vector_db_id info (Some v1)))) w)
          = (Ok (), with_kv (insert (session_key agent_id sid)
                               (model_dump_json (set_vector_db_id info (Some v2))))
                      w)) as Hsecond.
  { rewrite (add_vector_db_to_session_run _ _ (set_vector_db_id info (Some v1))).
    - unfold with_kv. cbn. by rewrite insert_insert_eq.
    - rewrite (get_session_info_stored _ (set_vector_db_id info (Some v1)));
        [done|]. cbn. apply lookup_insert_eq. }
  split; [exact Hsecond|]. split.
  - by rewrite (add_vector_db_to_session_run _ _ info).
  - apply get_session_info_stored. cbn. apply lookup_insert_eq.
Qed.

(** X18.  A step written for a (session, turn) pair is what
    [get_in_progress_tool_call_step] then answers for that pair. *)
Theorem set_then_get_in_progress_tool_call_step
    `{!BaseModelLaws ToolExecutionStep} sid tid step w :
  ∃ w', set_in_progress_tool_call_step agent_id sid tid step w = (Ok (), w')
        ∧ get_in_progress_tool_call_step agent_id sid tid w'
          = (Ok (Some step), w').
Proof.
  eexists. split; [reflexivity|].
  erewrite get_step_set.
  - by rewrite validate_dump.
  - cbn. apply lookup_insert_eq.
  - apply dump_truthy.
Qed.

(** X19.  With delimiter-free session ids, writing the step of one
    (session, turn) pair does not change what is read for a different
    pair. *)
Theorem step_pairs_are_isolated sid tid step sid' tid' w :
  colon_free sid → colon_free sid' → (sid, tid) ≠ (sid', tid') →
  (get_in_progress_tool_call_step agent_id sid' tid'
     (set_in_progress_tool_call_step agent_id sid tid step w).2).1
  = (get_in_progress_tool_call_step agent_id sid' tid' w).1.
Proof.
  intros Hs Hs' Hne. apply get_step_ext. cbn. apply lookup_insert_ne.
  intros [-> ->]%step_key_split; done.
Qed.

(** X20.  Creating a session and attaching a vector db to the id returned
    leaves, under that id, the record with the id itself, the given name,
    the creation time and the vector db. *)
Theorem create_attach_get `{!BaseModelLaws AgentSessionInfo} name vdb w :
  ∃ sid w1 w2,
    create_session agent_id name w = (Ok sid, w1)
    ∧ add_vector_db_to_session agent_id sid vdb w1 = (Ok (), w2)
    ∧ get_session_info agent_id sid w2
      = (Ok (Some (mkAgentSessionInfo sid name (Some vdb)
                     (time_seq w (S (tick w))))), w2).
Proof.
  eexists _, _, _. split; [apply create_session_run|]. split.
  - apply add_vector_db_to_session_run.
    erewrite get_session_info_stored; [reflexivity|].
    cbn. apply lookup_insert_eq.
  - apply get_session_info_stored. cbn. apply lookup_insert_eq.
Qed.

(** X21.  A session just created under a delimiter-free uuid, in a store
    that held nothing under its turn keys, has an empty turn list. *)
Theorem new_session_has_no_turns name w :
  let sid := uuid_seq w (tick w) in
  colon_free sid →
  (∀ tid, str_ltb tid xff4 = true → kv w !! turn_key agent_id sid tid = None) →
  ∃ w1, create_session agent_id name w = (Ok sid, w1)
        ∧ get_session_turns agent_id sid w1 = (Ok [], w1).
Proof.
  intros sid Hfree Hnone. eexists. split; [apply create_session_run|].
  apply get_session_turns_no_keys. intros tid Hlt. cbn.
  rewrite lookup_insert_ne by (by apply session_key_not_turn_key).
  by apply Hnone.
Qed.
End more.

(** ** The reference serialisation satisfies the contract *)

Import Reference.

Lemma dec_enc_str s r : dec_str (enc_str s ++ r) = Some (s, r).
Proof.
  unfold dec_str, enc_str. simpl. rewrite Nat2N.id.
  rewrite decide_True by (rewrite length_app; lia).
  by rewrite take_app_length, drop_app_length.
Qed.

Lemma dec_enc_opt_str o r : dec_opt_str (enc_opt_str o ++ r) = Some (o, r).
Proof.
  destruct o as [s|]; [|done]. cbn -[enc_str dec_str].
  by rewrite dec_enc_str.
Qed.

Lemma dec_enc_time d r : dec_time (enc_time d ++ r) = Some (d, r).
Proof.
  destruct d as [t [z|]]; [|done]. unfold enc_time, dec_time. cbn.
  destruct (z <? 0)%Z eqn:Hz; cbn.
  - apply Z.ltb_lt in Hz. rewrite decide_False by lia.
    by rewrite N2Z.inj_abs_N, Z.abs_neq, Z.opp_involutive by lia.
  - apply Z.ltb_ge in Hz. by rewrite N2Z.inj_abs_N, Z.abs_eq by lia.
Qed.

Lemma dec_enc_time_end d : dec_time (enc_time d) = Some (d, []).
Proof. rewrite <- (app_nil_r (enc_time d)). apply dec_enc_time. Qed.

Lemma dec_enc_opt_time o r : dec_opt_time (enc_opt_time o ++ r) = Some (o, r).
Proof.
  destruct o as [d|]; [|done]. cbn -[enc_time dec_time].
  by rewrite dec_enc_time.
Qed.

Lemma dec_enc_str_end s : dec_str (enc_str s) = Some (s, []).
Proof. rewrite <- (app_nil_r (enc_str s)). apply dec_enc_str. Qed.

Ltac decode_field :=
  cbn -[enc_str dec_str enc_opt_str dec_opt_str enc_opt_time dec_opt_time
        enc_time dec_time];
  rewrite ?decide_True by done;
  rewrite ?dec_enc_str, ?dec_enc_str_end, ?dec_enc_opt_str, ?dec_enc_opt_time,
    ?dec_enc_time_end.

Lemma load_dump_info i : load_info (dump_info i) = Some i.
Proof.
  destruct i as [sid name vdb t]. unfold load_info, dump_info.
  by repeat decode_field.
Qed.

Lemma load_dump_turn t : load_turn (dump_turn t) = Some t.
Proof.
  destruct t as [tid done body]. unfold load_turn, dump_turn.
  by repeat decode_field.
Qed.

Lemma load_dump_step s : load_step (dump_step s) = Some s.
Proof.
  destruct s as [sid body]. unfold load_step, dump_step.
  by repeat decode_field.
Qed.

Lemma info_laws : BaseModelLaws AgentSessionInfo.
Proof.
  split; intros x.
  - change (of_option (load_info (dump_info x)) = Ok x). by rewrite load_dump_info.
  - discriminate.
Qed.

Lemma turn_laws : BaseModelLaws Turn.
Proof.
  split; intros x.
  - change (of_option (load_turn (dump_turn x)) = Ok x). by rewrite load_dump_turn.
  - discriminate.
Qed.

Lemma step_laws : BaseModelLaws ToolExecutionStep.
Proof.
  split; intros x.
  - change (of_option (load_step (dump_step x)) = Ok x). by rewrite load_dump_step.
  - discriminate.
Qed.

(** ** Concrete runs *)

Lemma colon_free_agent : colon_free agent.
Proof. unfold colon_free. apply (bool_decide_unpack _). by vm_compute. Qed.

Lemma colon_free_s : colon_free (lit "s").
Proof. unfold colon_free. apply (bool_decide_unpack _). by vm_compute. Qed.

(** The scope theorem at a session that shares the store with a session whose
    id extends its own. *)
Lemma get_session_turns_scope_witness :
  let w := (add_turn_to_session agent (lit "sx") t_early
              (add_turn_to_session agent (lit "s") t_late w0).2).2 in
  colon_free agent ∧ colon_free (lit "s") ∧
  ∃ items w',
    NoDup items.*1
    ∧ (∀ k v, (k, v) ∈ items
              ↔ kv w !! k = Some v
                ∧ ∃ turn_id, k = turn_key agent (lit "s") turn_id
                             ∧ str_ltb turn_id xff4 = true)
    ∧ (∀ k v, (k, v) ∈ items → ¬ foreign_key agent (lit "s") k)
    ∧ (uniform (sort_key <$> parsed items.*2) = true →
       ∃ r, get_session_turns agent (lit "s") w = (Ok r, w')
            ∧ r ≡ₚ parsed items.*2)
    ∧ (uniform (sort_key <$> parsed items.*2) = false →
       get_session_turns agent (lit "s") w = (Raise type_error, w')).
Proof.
  intros w. split; [apply colon_free_agent|]. split; [apply colon_free_s|].
  apply (get_session_turns_scope agent (lit "s") w);
    [apply colon_free_agent|apply colon_free_s].
Defined.

(** C1 fails as stated.  A turn whose id sorts at or above the end-of-range
    suffix is stored, and found by a point read, yet the scan of its session
    misses it; a turn added to session ["s:q"] is returned by the scan of
    session ["s"]; and a session that holds a turn stamped with an aware
    datetime beside a turn without [completed_at] gets no turn back, the
    sort raises. *)
Lemma get_session_turns_scope_counterexample :
  (let w := (add_turn_to_session agent (lit "s") t_high w0).2 in
   get_session_turn agent (lit "s") (turn_id t_high) w = (Ok (Some t_high), w)
   ∧ (get_session_turns agent (lit "s") w).1 = Ok [])
  ∧ (let w := (add_turn_to_session agent (lit "s:q") t_none w0).2 in
     lit "s:q" ≠ lit "s"
     ∧ (get_session_turns agent (lit "s") w).1 = Ok [t_none])
  ∧ (let w := (add_turns agent (lit "s") [t_aware; t_none] w0).2 in
     (get_session_turns agent (lit "s") w).1 = Raise type_error).
Proof. by vm_compute. Qed.

(** Three turns added late, early, unfinished come back unfinished, early,
    late. *)
Example get_session_turns_example :
  (get_session_turns agent (lit "s")
     (add_turns agent (lit "s") [t_late; t_early; t_none] w0).2).1
  = Ok [t_none; t_early; t_late].
Proof. by vm_compute. Qed.

Lemma get_session_turns_sorted_witness :
  let ts := [t_late; t_none; t_early; t_min] in
  (∀ k, in_range (turn_prefix agent (lit "s"))
                 (turn_prefix agent (lit "s") ++ xff4) k = true →
        kv w0 !! k = None)
  ∧ NoDup (turn_id <$> ts)
  ∧ Forall (λ t, str_ltb (turn_id t) xff4 = true) ts
  ∧ uniform (sort_key <$> ts) = true
  ∧ sort_key t_min = sort_key t_none
  ∧ ∃ w1 w2 r,
      add_turns agent (lit "s") ts w0 = (Ok (), w1)
      ∧ get_session_turns agent (lit "s") w1 = (Ok r, w2)
      ∧ r ≡ₚ ts
      ∧ StronglySorted
          (λ a b, instant (sort_key a) ≤ instant (sort_key b))%Z r
      ∧ (∀ i j a b d,
           r !! i = Some a → r !! j = Some b →
           completed_at a = None → completed_at b = Some d →
           d ≠ datetime_min → (i < j)%nat)
      ∧ (∀ i j a b,
           r !! i = Some a → r !! j = Some b → (i < j)%nat →
           instant (sort_key a) = instant (sort_key b) →
           str_ltb (turn_id a) (turn_id b) = true).
Proof.
  intros ts.
  assert (∀ k, in_range (turn_prefix agent (lit "s"))
                 (turn_prefix agent (lit "s") ++ xff4) k = true →
               kv w0 !! k = None) as Hfresh by (intros k _; apply lookup_empty).
  assert (NoDup (turn_id <$> ts)) as Hnd
    by (apply (bool_decide_unpack _); by vm_compute).
  assert (Forall (λ t, str_ltb (turn_id t) xff4 = true) ts) as Hlow
    by (repeat constructor).
  assert (uniform (sort_key <$> ts) = true) as Hu by reflexivity.
  split; [done|]. split; [done|]. split; [done|]. split; [done|].
  split; [reflexivity|].
  destruct (@get_session_turns_sorted agent turn_model turn_laws (lit "s")
              ts w0 Hfresh Hnd Hlow) as (w1 & w2 & Hadd & Hok & _).
  destruct (Hok Hu) as (r & Hr).
  exists w1, w2, r. by split.
Defined.

(** The four turns of that run come back with the two that tie, the one
    stamped [datetime.min] and the unfinished one, in the order of their
    turn ids. *)
Example get_session_turns_tie_example :
  (get_session_turns agent (lit "s")
     (add_turns agent (lit "s") [t_late; t_none; t_early; t_min] w0).2).1
  = Ok [t_min; t_none; t_early; t_late].
Proof. by vm_compute. Qed.

(** C2 fails as stated.  A turn stamped [datetime.min] and a turn without
    [completed_at] have distinct [completed_at] values and the same sort key;
    the scan finds the stamped one first, and it is returned first.  A turn
    stamped with an aware datetime and a turn without [completed_at] have
    distinct [completed_at] values too, and for them the call returns no
    list at all: the sort raises. *)
Lemma get_session_turns_sorted_counterexample :
  (let w := (add_turns agent (lit "s") [t_none; t_min] w0).2 in
   completed_at t_min = Some datetime_min
   ∧ completed_at t_none = None
   ∧ (get_session_turns agent (lit "s") w).1 = Ok [t_min; t_none])
  ∧ (let w := (add_turns agent (lit "s") [t_none; t_aware] w0).2 in
     aware (sort_key t_aware) = true
     ∧ completed_at t_none = None
     ∧ (get_session_turns agent (lit "s") w).1 = Raise type_error).
Proof. by vm_compute. Qed.

Lemma get_session_turns_skips_corrupt_witness :
  let values := [model_dump_json t_late; lit "{garbage"] in
  kvstore_range (turn_prefix agent (lit "s"))
                (turn_prefix agent (lit "s") ++ xff4) w_corrupt
  = (Ok values, w_corrupt)
  ∧ uniform (sort_key <$> parsed values) = true
  ∧ ∃ w' r,
      log w' = log w_corrupt ++ parse_errors values
      ∧ get_session_turns agent (lit "s") w_corrupt = (Ok r, w')
      ∧ r ≡ₚ parsed values
      ∧ (∀ v t, v ∈ values → model_validate v = Ok t → t ∈ r)
      ∧ (∀ t, t ∈ r → ∃ v, v ∈ values ∧ model_validate v = Ok t)
      ∧ (length r + length (parse_errors values) = length values)%nat.
Proof.
  intros values.
  assert (kvstore_range (turn_prefix agent (lit "s"))
            (turn_prefix agent (lit "s") ++ xff4) w_corrupt
          = (Ok values, w_corrupt)) as Hscan by (by vm_compute).
  assert (uniform (sort_key <$> parsed values) = true) as Hu by (by vm_compute).
  split; [done|]. split; [done|].
  destruct (get_session_turns_skips_corrupt agent (lit "s") values
              w_corrupt w_corrupt Hscan) as (w' & Hlog & Hok & _).
  destruct (Hok Hu) as (r & Hr).
  exists w', r. by split.
Defined.

(** On that world the scan returns the good turn and logs one error. *)
Example get_session_turns_corrupt_example :
  (get_session_turns agent (lit "s") w_corrupt).1 = Ok [t_late]
  ∧ length (log (get_session_turns agent (lit "s") w_corrupt).2) = 1%nat.
Proof. by vm_compute. Qed.

(** C3 fails as stated.  Beside the value that is no turn, let the session
    hold a turn stamped with an aware datetime and a turn without
    [completed_at]: both deserialise, the corrupt value is logged, and the
    call raises instead of returning them. *)
Lemma get_session_turns_skips_corrupt_counterexample :
  let w := (add_turns agent (lit "s") [t_aware; t_none]
              (kvstore_set (turn_key agent (lit "s") (lit "t9"))
                 (lit "{garbage") w0).2).2 in
  (kvstore_range (turn_prefix agent (lit "s"))
                 (turn_prefix agent (lit "s") ++ xff4) w).1
  = Ok [model_dump_json t_none; model_dump_json t_aware; lit "{garbage"]
  ∧ model_validate (model_dump_json t_none) = Ok t_none
  ∧ model_validate (model_dump_json t_aware) = Ok t_aware
  ∧ model_validate (A:=Turn) (lit "{garbage") = invalid
  ∧ (get_session_turns agent (lit "s") w).1 = Raise type_error
  ∧ length (log (get_session_turns agent (lit "s") w).2) = 1%nat.
Proof. by vm_compute. Qed.

Lemma point_reads_absent_or_raise_witness :
  kv w_corrupt !! turn_key agent (lit "s") (lit "t9") = Some (lit "{garbage")
  ∧ lit "{garbage" ≠ []
  ∧ model_validate (A:=Turn) (lit "{garbage") = invalid
  ∧ get_session_turn agent (lit "s") (lit "t9") w_corrupt = (invalid, w_corrupt).
Proof.
  assert (kv w_corrupt !! turn_key agent (lit "s") (lit "t9")
          = Some (lit "{garbage")) as Hk by (by vm_compute).
  assert (lit "{garbage" ≠ []) as Hv by (by vm_compute).
  assert (model_validate (A:=Turn) (lit "{garbage") = invalid) as He
    by (by vm_compute).
  split; [done|]. split; [done|]. split; [done|].
  exact (proj1 (proj2 (proj2
           (point_reads_absent_or_raise agent (lit "s") (lit "t9") w_corrupt)))
           _ _ Hk Hv He).
Defined.

(** C4 fails as stated.  A key that is set to the empty text holds a value
    that does not deserialise, and both point reads answer absent for it. *)
Lemma point_reads_counterexample :
  (let w := (kvstore_set (turn_key agent (lit "s") (lit "t")) [] w0).2 in
   kv w !! turn_key agent (lit "s") (lit "t") = Some []
   ∧ model_validate (A:=Turn) [] = invalid
   ∧ get_session_turn agent (lit "s") (lit "t") w = (Ok None, w))
  ∧ (let w := (kvstore_set (step_key agent (lit "s") (lit "t")) [] w0).2 in
     kv w !! step_key agent (lit "s") (lit "t") = Some []
     ∧ model_validate (A:=ToolExecutionStep) [] = invalid
     ∧ get_in_progress_tool_call_step agent (lit "s") (lit "t") w = (Ok None, w)).
Proof. by vm_compute. Qed.

Lemma create_session_then_get_session_info_witness :
  BaseModelLaws AgentSessionInfo
  ∧ ∃ session_id w1 info,
      create_session agent (lit "demo") w0 = (Ok session_id, w1)
      ∧ get_session_info agent session_id w1 = (Ok (Some info), w1)
      ∧ session_name info = lit "demo"
      ∧ started_at info = time_seq w0 (S (tick w0))
      ∧ vector_db_id info = None.
Proof.
  split; [exact info_laws|].
  exact (@create_session_then_get_session_info agent info_model info_laws
           (lit "demo") w0).
Defined.

Lemma add_vector_db_to_session_not_found_witness :
  kv w0 !! session_key agent (lit "nope") = None
  ∧ add_vector_db_to_session agent (lit "nope") (lit "vdb-1") w0
    = (Raise (ValueError (lit "Session " ++ lit "nope" ++ lit " not found")), w0).
Proof.
  assert (kv w0 !! session_key agent (lit "nope") = None) as Hk
    by apply lookup_empty.
  split; [done|].
  exact (add_vector_db_to_session_not_found agent (lit "nope") (lit "vdb-1") w0 Hk).
Defined.

Lemma add_vector_db_to_session_frame_witness :
  let w := (create_session agent (lit "demo") w0).2 in
  let info := mkAgentSessionInfo (lit "sess-0") (lit "demo") None (naive 1001) in
  BaseModelLaws AgentSessionInfo
  ∧ (get_session_info agent (lit "sess-0") w).1 = Ok (Some info)
  ∧ ∃ w' info',
      add_vector_db_to_session agent (lit "sess-0") (lit "vdb-1") w = (Ok (), w')
      ∧ get_session_info agent (lit "sess-0") w' = (Ok (Some info'), w')
      ∧ session_id info' = session_id info
      ∧ session_name info' = session_name info
      ∧ started_at info' = started_at info
      ∧ vector_db_id info' = Some (lit "vdb-1").
Proof.
  intros w info.
  assert ((get_session_info agent (lit "sess-0") w).1 = Ok (Some info)) as Hget
    by (by vm_compute).
  split; [exact info_laws|]. split; [done|].
  exact (@add_vector_db_to_session_frame agent info_model info_laws (lit "sess-0")
           (lit "vdb-1") info w Hget).
Defined.

Lemma set_in_progress_tool_call_step_overwrites_witness :
  let w1 := (set_in_progress_tool_call_step agent (lit "s") (lit "t") step1 w0).2 in
  let w2 := (set_in_progress_tool_call_step agent (lit "s") (lit "t") step2 w1).2 in
  BaseModelLaws ToolExecutionStep
  ∧ step1 ≠ step2
  ∧ get_in_progress_tool_call_step agent (lit "s") (lit "t") w2 = (Ok (Some step2), w2)
  ∧ (get_in_progress_tool_call_step agent (lit "s") (lit "t") w2).1 ≠ Ok (Some step1)
  ∧ kv w2 !! step_key agent (lit "s") (lit "t") = Some (model_dump_json step2)
  ∧ w2 = (set_in_progress_tool_call_step agent (lit "s") (lit "t") step2 w0).2.
Proof.
  intros w1 w2.
  assert (step1 ≠ step2) as Hne by (by vm_compute).
  split; [exact step_laws|]. split; [done|].
  exact (@set_in_progress_tool_call_step_overwrites agent step_model step_laws
           (lit "s") (lit "t") step1 step2 w0 Hne).
Defined.

Lemma mutations_write_one_key_witness :
  let w := (create_session agent (lit "demo") w0).2 in
  let w' := (add_vector_db_to_session agent (lit "sess-0") (lit "vdb-1") w).2 in
  add_vector_db_to_session agent (lit "sess-0") (lit "vdb-1") w = (Ok (), w')
  ∧ ∃ info,
      (get_session_info agent (lit "sess-0") w).1 = Ok (Some info)
      ∧ writes_exactly (session_key agent (lit "sess-0"))
          (model_dump_json (set_vector_db_id info (Some (lit "vdb-1"))))
          (kv w) (kv w').
Proof.
  intros w w'.
  assert (add_vector_db_to_session agent (lit "sess-0") (lit "vdb-1") w
          = (Ok (), w')) as Hrun by (by vm_compute).
  split; [done|].
  exact (proj1 (proj2 (mutations_write_one_key agent w))
           (lit "sess-0") (lit "vdb-1") w' Hrun).
Defined.

(** On that run the value under the metadata key changes: the call does
    write. *)
Example add_vector_db_to_session_changes_store :
  let w := (create_session agent (lit "demo") w0).2 in
  let w' := (add_vector_db_to_session agent (lit "sess-0") (lit "vdb-1") w).2 in
  kv w' !! session_key agent (lit "sess-0")
  ≠ kv w !! session_key agent (lit "sess-0").
Proof. by vm_compute. Qed.

(** ** Concrete runs of the further properties *)

Ltac by_compute := apply (bool_decide_unpack _); by vm_compute.

Lemma get_session_info_absent_or_raise_witness :
  let w := (kvstore_set (session_key agent (lit "s")) (lit "{garbage") w0).2 in
  kv w !! session_key agent (lit "s") = Some (lit "{garbage")
  ∧ lit "{garbage" ≠ []
  ∧ model_validate (A:=AgentSessionInfo) (lit "{garbage") = invalid
  ∧ get_session_info agent (lit "s") w = (invalid, w).
Proof.
  intros w.
  assert (kv w !! session_key agent (lit "s") = Some (lit "{garbage")) as Hk
    by (by vm_compute).
  assert (lit "{garbage" ≠ []) as Hv by (by vm_compute).
  assert (model_validate (A:=AgentSessionInfo) (lit "{garbage") = invalid) as He
    by (by vm_compute).
  split; [done|]. split; [done|]. split; [done|].
  exact (proj1 (proj2 (proj2
           (get_session_info_absent_or_raise agent (lit "s") w))) _ _ Hk Hv He).
Defined.

Lemma add_vector_db_to_session_unreadable_witness :
  let w := (kvstore_set (session_key agent (lit "s")) (lit "{garbage") w0).2 in
  kv w !! session_key agent (lit "s") = Some (lit "{garbage")
  ∧ lit "{garbage" ≠ []
  ∧ model_validate (A:=AgentSessionInfo) (lit "{garbage") = invalid
  ∧ add_vector_db_to_session agent (lit "s") (lit "vdb-1") w = (invalid, w).
Proof.
  intros w.
  assert (kv w !! session_key agent (lit "s") = Some (lit "{garbage")) as Hk
    by (by vm_compute).
  assert (lit "{garbage" ≠ []) as Hv by (by vm_compute).
  assert (model_validate (A:=AgentSessionInfo) (lit "{garbage") = invalid) as He
    by (by vm_compute).
  split; [done|]. split; [done|]. split; [done|].
  exact (proj2 (add_vector_db_to_session_unreadable agent (lit "s")
                  (lit "vdb-1") w) _ _ Hk Hv He).
Defined.

Lemma add_turn_then_get_session_turn_witness :
  BaseModelLaws Turn
  ∧ ∃ w', add_turn_to_session agent (lit "s") t_late w0 = (Ok (), w')
          ∧ get_session_turn agent (lit "s") (turn_id t_late) w'
            = (Ok (Some t_late), w').
Proof.
  split; [exact turn_laws|].
  exact (@add_turn_then_get_session_turn agent turn_model turn_laws
           (lit "s") t_late w0).
Defined.

Lemma add_turn_to_session_overwrites_witness :
  let t1 := mkTurn (lit "t1") None (lit "draft") in
  let w1 := (add_turn_to_session agent (lit "s") t1 w0).2 in
  let w2 := (add_turn_to_session agent (lit "s") t_late w1).2 in
  BaseModelLaws Turn
  ∧ turn_id t1 = turn_id t_late
  ∧ w2 = (add_turn_to_session agent (lit "s") t_late w0).2
  ∧ get_session_turn agent (lit "s") (turn_id t1) w2 = (Ok (Some t_late), w2).
Proof.
  intros t1 w1 w2.
  assert (turn_id t1 = turn_id t_late) as Hid by reflexivity.
  split; [exact turn_laws|]. split; [done|].
  exact (@add_turn_to_session_overwrites agent turn_model turn_laws
           (lit "s") t1 t_late w0 Hid).
Defined.

Lemma added_turn_is_scanned_witness :
  let w1 := (add_turn_to_session agent (lit "s") t_early w_corrupt).2 in
  let values :=
    [model_dump_json t_late; model_dump_json t_early; lit "{garbage"] in
  BaseModelLaws Turn
  ∧ str_ltb (turn_id t_early) xff4 = true
  ∧ kvstore_range (turn_prefix agent (lit "s"))
      (turn_prefix agent (lit "s") ++ xff4) w1 = (Ok values, w1)
  ∧ uniform (sort_key <$> parsed values) = true
  ∧ t_early ∈ parsed values
  ∧ ∃ r w2, get_session_turns agent (lit "s") w1 = (Ok r, w2) ∧ t_early ∈ r.
Proof.
  intros w1 values.
  assert (str_ltb (turn_id t_early) xff4 = true) as Hlt by (by vm_compute).
  assert (kvstore_range (turn_prefix agent (lit "s"))
            (turn_prefix agent (lit "s") ++ xff4) w1 = (Ok values, w1)) as Hscan
    by (by vm_compute).
  assert (uniform (sort_key <$> parsed values) = true) as Hu by (by vm_compute).
  split; [exact turn_laws|]. split; [done|]. split; [done|]. split; [done|].
  destruct (@added_turn_is_scanned agent turn_model turn_laws
              (lit "s") t_early values w_corrupt w1 Hlt Hscan)
    as (Hin & _ & Hok).
  split; [done|]. exact (Hok Hu).
Defined.

Lemma high_turn_id_not_scanned_witness :
  str_ltb (turn_id t_high) xff4 = false
  ∧ (get_session_turns agent (lit "s")
       (add_turn_to_session agent (lit "s") t_high w_corrupt).2).1
    = (get_session_turns agent (lit "s") w_corrupt).1.
Proof.
  assert (str_ltb (turn_id t_high) xff4 = false) as Hhigh by (by vm_compute).
  split; [done|].
  exact (high_turn_id_not_scanned agent (lit "s") t_high w_corrupt Hhigh).
Defined.

Lemma get_session_turns_no_turns_witness :
  (∀ tid, str_ltb tid xff4 = true →
          kv w_corrupt !! turn_key agent (lit "other") tid = None)
  ∧ get_session_turns agent (lit "other") w_corrupt = (Ok [], w_corrupt).
Proof.
  assert (∀ tid, str_ltb tid xff4 = true →
                 kv w_corrupt !! turn_key agent (lit "other") tid = None) as Hnone.
  { intros tid _. unfold w_corrupt. cbn.
    rewrite !lookup_insert_ne, lookup_empty; [done|..];
      unfold turn_key; intros Heq; by vm_compute (lit _) in Heq. }
  split; [done|].
  exact (get_session_turns_no_turns agent (lit "other") w_corrupt Hnone).
Defined.

Lemma get_session_turns_sorted_stable_witness :
  let w := (add_turns agent (lit "s") [t_none; t_min; t_late] w0).2 in
  let values := model_dump_json <$> [t_min; t_late; t_none] in
  kvstore_range (turn_prefix agent (lit "s"))
                (turn_prefix agent (lit "s") ++ xff4) w = (Ok values, w)
  ∧ uniform (sort_key <$> parsed values) = true
  ∧ ∃ w' r,
      get_session_turns agent (lit "s") w = (Ok r, w')
      ∧ StronglySorted
          (λ a b, instant (sort_key a) ≤ instant (sort_key b))%Z r
      ∧ ∀ k, filter (λ a, instant (sort_key a) = k) r
             = filter (λ a, instant (sort_key a) = k) (parsed values).
Proof.
  intros w values.
  assert (kvstore_range (turn_prefix agent (lit "s"))
            (turn_prefix agent (lit "s") ++ xff4) w = (Ok values, w)) as Hscan
    by (by vm_compute).
  assert (uniform (sort_key <$> parsed values) = true) as Hu by (by vm_compute).
  split; [done|]. split; [done|].
  destruct (get_session_turns_sorted_stable agent (lit "s") values w w Hscan)
    as (w' & Hok & _).
  destruct (Hok Hu) as (r & Hr).
  exists w', r. exact Hr.
Defined.

Lemma turns_of_other_sessions_unaffected_witness :
  let w := (add_turn_to_session agent (lit "s") t_late w0).2 in
  let w' := (add_turn_to_session agent (lit "sx") t_early w).2 in
  colon_free (lit "s") ∧ colon_free (lit "sx") ∧ lit "s" ≠ lit "sx"
  ∧ (get_session_turns agent (lit "s") w').1 = (get_session_turns agent (lit "s") w).1
  ∧ (get_session_turn agent (lit "s") (lit "t2") w').1
    = (get_session_turn agent (lit "s") (lit "t2") w).1.
Proof.
  intros w w'.
  assert (colon_free (lit "s")) as Hs by (unfold colon_free; by_compute).
  assert (colon_free (lit "sx")) as Hsx by (unfold colon_free; by_compute).
  assert (lit "s" ≠ lit "sx") as Hne by (by vm_compute).
  split; [done|]. split; [done|]. split; [done|].
  exact (turns_of_other_sessions_unaffected agent (lit "s") (lit "sx")
           t_early (lit "t2") w Hs Hsx Hne).
Defined.

Lemma metadata_writes_leave_turns_witness :
  let w := (add_turn_to_session agent (lit "s") t_late
              (create_session agent (lit "demo") w0).2).2 in
  let w' := (add_vector_db_to_session agent (lit "sess-0") (lit "vdb-1") w).2 in
  colon_free (lit "sess-0")
  ∧ (get_session_turns agent (lit "s") w').1 = (get_session_turns agent (lit "s") w).1
  ∧ (get_session_turn agent (lit "s") (lit "t1") w').1
    = (get_session_turn agent (lit "s") (lit "t1") w).1.
Proof.
  intros w w'.
  assert (colon_free (lit "sess-0")) as Hs by (unfold colon_free; by_compute).
  split; [done|].
  exact (proj1 (metadata_writes_leave_turns agent (lit "s") (lit "t1") w)
           (lit "sess-0") (lit "vdb-1") Hs).
Defined.

Lemma turn_writes_leave_session_info_witness :
  let w := (create_session agent (lit "demo") w0).2 in
  colon_free (lit "sess-0")
  ∧ (get_session_info agent (lit "sess-0")
       (add_turn_to_session agent (lit "sess-0") t_late w).2).1
    = (get_session_info agent (lit "sess-0") w).1.
Proof.
  intros w.
  assert (colon_free (lit "sess-0")) as Hs by (unfold colon_free; by_compute).
  split; [done|].
  exact (turn_writes_leave_session_info agent (lit "sess-0") (lit "sess-0")
           t_late w Hs).
Defined.

Lemma turn_key_aliases_session_key_witness :
  let w' := (add_turn_to_session agent (lit "s") t_late w0).2 in
  BaseModelLaws Turn
  ∧ get_session_info agent (lit "s" ++ lit ":" ++ turn_id t_late) w'
    = (match model_validate (A:=AgentSessionInfo) (model_dump_json t_late) with
       | Ok info => Ok (Some info)
       | Raise e => Raise e
       end, w').
Proof.
  intros w'. split; [exact turn_laws|].
  exact (@turn_key_aliases_session_key agent info_model turn_model turn_laws
           (lit "s") t_late w0).
Defined.

Lemma create_session_twice_witness :
  let id1 := uuid_seq w0 (tick w0) in
  let id2 := uuid_seq w0 (S (S (tick w0))) in
  BaseModelLaws AgentSessionInfo
  ∧ id1 ≠ id2
  ∧ ∃ w1 w2,
      create_session agent (lit "first") w0 = (Ok id1, w1)
      ∧ create_session agent (lit "second") w1 = (Ok id2, w2)
      ∧ get_session_info agent id1 w2
        = (Ok (Some (mkAgentSessionInfo id1 (lit "first") None
                       (time_seq w0 (S (tick w0))))), w2)
      ∧ get_session_info agent id2 w2
        = (Ok (Some (mkAgentSessionInfo id2 (lit "second") None
                       (time_seq w0 (S (S (S (tick w0))))))), w2).
Proof.
  intros id1 id2.
  assert (id1 ≠ id2) as Hne by (by vm_compute).
  split; [exact info_laws|]. split; [done|].
  exact (@create_session_twice agent info_model info_laws
           (lit "first") (lit "second") w0 Hne).
Defined.

Lemma create_session_collision_witness :
  let w := mkWorld ∅ [] (λ _, lit "same") (λ n, naive (N.of_nat n)) 0 in
  BaseModelLaws AgentSessionInfo
  ∧ uuid_seq w (S (S (tick w))) = uuid_seq w (tick w)
  ∧ ∃ id w1 w2,
      create_session agent (lit "first") w = (Ok id, w1)
      ∧ create_session agent (lit "second") w1 = (Ok id, w2)
      ∧ get_session_info agent id w2
        = (Ok (Some (mkAgentSessionInfo id (lit "second") None
                       (time_seq w (S (S (S (tick w))))))), w2).
Proof.
  intros w.
  assert (uuid_seq w (S (S (tick w))) = uuid_seq w (tick w)) as Hsame
    by reflexivity.
  split; [exact info_laws|]. split; [done|].
  exact (@create_session_collision agent info_model info_laws
           (lit "first") (lit "second") w Hsame).
Defined.

Lemma add_vector_db_to_session_twice_witness :
  let w := (create_session agent (lit "demo") w0).2 in
  let info := mkAgentSessionInfo (lit "sess-0") (lit "demo") None (naive 1001) in
  BaseModelLaws AgentSessionInfo
  ∧ (get_session_info agent (lit "sess-0") w).1 = Ok (Some info)
  ∧ ∃ w1 w2,
      add_vector_db_to_session agent (lit "sess-0") (lit "vdb-1") w = (Ok (), w1)
      ∧ add_vector_db_to_session agent (lit "sess-0") (lit "vdb-2") w1 = (Ok (), w2)
      ∧ w2 = (add_vector_db_to_session agent (lit "sess-0") (lit "vdb-2") w).2
      ∧ get_session_info agent (lit "sess-0") w2
        = (Ok (Some (set_vector_db_id info (Some (lit "vdb-2")))), w2).
Proof.
  intros w info.
  assert ((get_session_info agent (lit "sess-0") w).1 = Ok (Some info)) as Hget
    by (by vm_compute).
  split; [exact info_laws|]. split; [done|].
  exact (@add_vector_db_to_session_twice agent info_model info_laws
           (lit "sess-0") (lit "vdb-1") (lit "vdb-2") info w Hget).
Defined.

Lemma set_then_get_in_progress_tool_call_step_witness :
  BaseModelLaws ToolExecutionStep
  ∧ ∃ w', set_in_progress_tool_call_step agent (lit "s") (lit "t") step1 w0
          = (Ok (), w')
          ∧ get_in_progress_tool_call_step agent (lit "s") (lit "t") w'
            = (Ok (Some step1), w').
Proof.
  split; [exact step_laws|].
  exact (@set_then_get_in_progress_tool_call_step agent step_model step_laws
           (lit "s") (lit "t") step1 w0).
Defined.

Lemma step_pairs_are_isolated_witness :
  let w := (set_in_progress_tool_call_step agent (lit "s") (lit "t1") step1 w0).2 in
  colon_free (lit "s") ∧ colon_free (lit "s")
  ∧ (lit "s", lit "t2") ≠ (lit "s", lit "t1")
  ∧ (get_in_progress_tool_call_step agent (lit "s") (lit "t1")
       (set_in_progress_tool_call_step agent (lit "s") (lit "t2") step2 w).2).1
    = (get_in_progress_tool_call_step agent (lit "s") (lit "t1") w).1.
Proof.
  intros w.
  assert (colon_free (lit "s")) as Hs by (unfold colon_free; by_compute).
  assert ((lit "s", lit "t2") ≠ (lit "s", lit "t1")) as Hne by (by vm_compute).
  split; [done|]. split; [done|]. split; [done|].
  exact (step_pairs_are_isolated agent (lit "s") (lit "t2") step2
           (lit "s") (lit "t1") w Hs Hs Hne).
Defined.

Lemma create_attach_get_witness :
  BaseModelLaws AgentSessionInfo
  ∧ ∃ sid w1 w2,
      create_session agent (lit "demo") w0 = (Ok sid, w1)
      ∧ add_vector_db_to_session agent sid (lit "vdb-1") w1 = (Ok (), w2)
      ∧ get_session_info agent sid w2
        = (Ok (Some (mkAgentSessionInfo sid (lit "demo") (Some (lit "vdb-1"))
                       (time_seq w0 (S (tick w0))))), w2).
Proof.
  split; [exact info_laws|].
  exact (@create_attach_get agent info_model info_laws
           (lit "demo") (lit "vdb-1") w0).
Defined.

Lemma new_session_has_no_turns_witness :
  let sid := uuid_seq w0 (tick w0) in
  colon_free sid
  ∧ (∀ tid, str_ltb tid xff4 = true → kv w0 !! turn_key agent sid tid = None)
  ∧ ∃ w1, create_session agent (lit "demo") w0 = (Ok sid, w1)
          ∧ get_session_turns agent sid w1 = (Ok [], w1).
Proof.
  intros sid.
  assert (colon_free sid) as Hfree by (unfold colon_free; by_compute).
  assert (∀ tid, str_ltb tid xff4 = true →
                 kv w0 !! turn_key agent sid tid = None) as Hnone
    by (intros tid _; apply lookup_empty).
  split; [done|]. split; [done|].
  exact (new_session_has_no_turns agent (lit "demo") w0 Hfree Hnone).
Defined.
